(** * A shallow embedding of go-file-dedupe's scanning pipeline

    The development follows [src/fswalk/fswalk.go] (the walker
    [walkFiles], the [digester] workers, the aggregation loop and the
    return statements of [DigestAll]) and the duplicate bookkeeping of
    the [Deduplicator] in [main.go] ([findDuplicates],
    [hardlinkDuplicates], [areFilesHardLinked]).

    Go's goroutines are modelled by a transition function [exec] that
    takes a scheduling [choice] naming which goroutine (or which pair of
    goroutines meeting on an unbuffered channel) moves next; the step
    relation is "some choice is enabled". *)

From Stdlib Require Import ZArith Lia Ascii String.
From stdpp Require Import base gmap list strings.

Open Scope Z_scope.

(* ------------------------------------------------------------------ *)
(** ** Errors, digests and hex encoding *)

(** The [error] values that flow through the pipeline: the two values
    of [ctx.Err()] and an error of a file operation. *)
Inductive go_error :=
  | ErrCanceled
  | ErrDeadlineExceeded
  | ErrIO (msg : string).

Global Instance go_error_eq_dec : EqDecision go_error.
Proof. solve_decision. Defined.

(** [iphash.HashBytes] is a byte slice. *)
Abbreviation HashBytes := (list Byte.byte).

(** [hex.EncodeToString]: every byte becomes [hextable[v>>4]] followed
    by [hextable[v&0x0f]]. *)
Definition hextable : string := "0123456789abcdef".

Definition hex_char (n : N) : Ascii.ascii :=
  match String.get (N.to_nat n) hextable with
  | Some c => c
  | None => Ascii.zero
  end.

Fixpoint encodeToString (src : HashBytes) : string :=
  match src with
  | [] => EmptyString
  | v :: rest =>
      let n := Byte.to_N v in
      String (hex_char (N.shiftr n 4))
        (String (hex_char (N.land n 15)) (encodeToString rest))
  end.

(** Inverse of [hex_char] on the sixteen digits, used only to show that
    [encodeToString] is injective. *)
Definition unhex (c : Ascii.ascii) : option N :=
  let fix go (s : string) (i : N) :=
    match s with
    | EmptyString => None
    | String d s' => if Ascii.eqb c d then Some i else go s' (i + 1)%N
    end in
  go hextable 0%N.

Fixpoint decodeString (s : string) : option HashBytes :=
  match s with
  | EmptyString => Some []
  | String c1 (String c2 s') =>
      match unhex c1, unhex c2, decodeString s' with
      | Some hi, Some lo, Some rest =>
          match Byte.of_N (hi * 16 + lo)%N with
          | Some b => Some (b :: rest)
          | None => None
          end
      | _, _, _ => None
      end
  | String _ EmptyString => None
  end.

(* ------------------------------------------------------------------ *)
(** ** The aggregation loop of [DigestAll] *)

(** [type result struct { path string; sum iphash.HashBytes; err error }] *)
Record result := mkResult {
  rpath : string;
  rsum : HashBytes;
  rerr : option go_error
}.

(** Lines the program prints with [fmt.Printf]. *)
Inductive logline :=
  | WarnAccess (path : string) (e : go_error)   (* "Warning: Error accessing %s: %v" *)
  | ErrHashing (path : string) (e : go_error).  (* "Error hashing file %s: %v" *)

(** The aggregator's local variables: the three channel variables
    ([true] while the variable is non-nil), [hashesToPaths],
    [discoveredDirs], [finalWalkErr], and what it printed. *)
Record agg := mkAgg {
  a_c : bool;
  a_dirPaths : bool;
  a_errc : bool;
  hashesToPaths : gmap string (list string);
  discoveredDirs : list string;
  finalWalkErr : option go_error;
  agg_out : list logline
}.

Definition agg_init : agg := mkAgg true true true ∅ [] None [].

(** What one iteration of the [select] received. A receive from a closed
    channel yields [ok == false]. The value on [errc] is itself an
    [error] that may be nil. *)
Inductive agg_event :=
  | EvResult (r : result)
  | EvClosedC
  | EvDir (p : string)
  | EvClosedDirPaths
  | EvErrc (v : option go_error)
  | EvClosedErrc.

(** [hashesToPaths[k] = append(hashesToPaths[k], p)]; a missing key reads
    as the nil slice. *)
Definition append_path (m : gmap string (list string)) (k p : string)
  : gmap string (list string) :=
  <[k := default [] (m !! k) ++ [p]]> m.

(** The body of the [select] (lines 133-159). *)
Definition agg_step (a : agg) (ev : agg_event) : agg :=
  match ev with
  | EvClosedC =>
      mkAgg false (a_dirPaths a) (a_errc a) (hashesToPaths a)
        (discoveredDirs a) (finalWalkErr a) (agg_out a)
  | EvResult r =>
      let out := match rerr r with
                 | Some e => agg_out a ++ [ErrHashing (rpath r) e]
                 | None => agg_out a
                 end in
      let m := match rerr r with
               | None => append_path (hashesToPaths a) (encodeToString (rsum r)) (rpath r)
               | Some _ => hashesToPaths a
               end in
      mkAgg (a_c a) (a_dirPaths a) (a_errc a) m (discoveredDirs a) (finalWalkErr a) out
  | EvClosedDirPaths =>
      mkAgg (a_c a) false (a_errc a) (hashesToPaths a)
        (discoveredDirs a) (finalWalkErr a) (agg_out a)
  | EvDir p =>
      mkAgg (a_c a) (a_dirPaths a) (a_errc a) (hashesToPaths a)
        (discoveredDirs a ++ [p]) (finalWalkErr a) (agg_out a)
  | EvClosedErrc =>
      mkAgg (a_c a) (a_dirPaths a) false (hashesToPaths a)
        (discoveredDirs a) (finalWalkErr a) (agg_out a)
  | EvErrc v =>
      mkAgg (a_c a) (a_dirPaths a) (a_errc a) (hashesToPaths a)
        (discoveredDirs a) v (agg_out a)
  end.

(** The aggregator's state after a sequence of received events. *)
Definition agg_loop (evs : list agg_event) : agg := foldl agg_step agg_init evs.

(** The loop's exit test [c == nil && dirPaths == nil && errc == nil]. *)
Definition agg_exit (a : agg) : bool :=
  negb (a_c a) && negb (a_dirPaths a) && negb (a_errc a).

(** The filter of lines 176-181: keep the keys with more than one path. *)
Definition duplicates_of (m : gmap string (list string)) : gmap string (list string) :=
  filter (fun kv : string * list string => (1 < length kv.2)%nat) m.

(** What [DigestAll] returns: the duplicate map ([None] for Go's nil
    map), the directories and the error. *)
Definition outcome : Type :=
  (option (gmap string (list string)) * list string * option go_error)%type.

(** The code after the loop (lines 168-189); [ctxErr] is [ctx.Err()]. *)
Definition digestAll_return (ctxErr : option go_error) (a : agg) : outcome :=
  match ctxErr with
  | Some e => (None, discoveredDirs a, Some e)
  | None =>
      match finalWalkErr a with
      | None => (Some (duplicates_of (hashesToPaths a)), discoveredDirs a, None)
      | Some e => (None, discoveredDirs a, Some e)
      end
  end.

Definition results_of (evs : list agg_event) : list result :=
  omap (fun ev => match ev with EvResult r => Some r | _ => None end) evs.

(* ------------------------------------------------------------------ *)
(** ** [findDuplicates] of the [Deduplicator] (main.go, part_005) *)

(** The two maps [fileByteMap] (hash -> first path seen) and
    [fileByteMapDups] (hash -> duplicate paths), both created empty by
    [NewDeduplicator]. *)
Record dedup := mkDedup {
  fileByteMap : gmap string string;
  fileByteMapDups : gmap string (list string)
}.

Definition dedup_init : dedup := mkDedup ∅ ∅.

(** One iteration of [for path, hashBytes := range d.fileMap]. *)
Definition findDuplicates_step (d : dedup) (entry : string * HashBytes) : dedup :=
  let '(path, hashBytes) := entry in
  let hashString := encodeToString hashBytes in
  match fileByteMap d !! hashString with
  | None => mkDedup (<[hashString := path]> (fileByteMap d)) (fileByteMapDups d)
  | Some originalPath =>
      let dups := match fileByteMapDups d !! hashString with
                  | None => <[hashString := [originalPath]]> (fileByteMapDups d)
                  | Some _ => fileByteMapDups d
                  end in
      mkDedup (fileByteMap d) (append_path dups hashString path)
  end.

(** [findDuplicates] over the iteration order [fileMap] of Go's map
    ranging (any order of its entries). *)
Definition findDuplicates (fileMap : list (string * HashBytes)) : dedup :=
  foldl findDuplicates_step dedup_init fileMap.

(** The table that [DigestAll]'s loop builds from the same sequence of
    successful results, then filters (lines 144 and 176-181). *)
Definition hashes_to_paths (rs : list (string * HashBytes)) : gmap string (list string) :=
  foldl (fun m '(p, sum) => append_path m (encodeToString sum) p) ∅ rs.

(* ------------------------------------------------------------------ *)
(** ** The concurrent pipeline of [DigestAll] *)

(** One invocation of the [filepath.WalkDir] callback: a directory, a
    regular file, another entry (a symlink, a device, ...), or an access
    error ([err != nil]). The walk of a tree is the list of its
    callback invocations in [WalkDir]'s lexical pre-order. *)
Inductive entry :=
  | EntryDir (path : string)
  | EntryReg (path : string)
  | EntryOther (path : string)
  | EntryErr (path : string) (err : go_error).

(** [HashFunc]: [func(filePath string) (iphash.HashBytes, error)]. *)
Definition HashFunc : Type := string -> HashBytes * option go_error.

(** [atomic.Uint64.Add(1)]. *)
Definition add1_u64 (x : Z) : Z := (x + 1) mod 2 ^ 64.

(** Program points of the walker goroutine of [walkFiles]. *)
Inductive walker_pc :=
  | WCallback (es : list entry)              (* next callback of WalkDir *)
  | WSendDir (p : string) (es : list entry)  (* blocked on [dirPaths <- path] *)
  | WSendFile (p : string) (es : list entry) (* blocked on [filePaths <- path] *)
  | WSendErrc (v : option go_error)          (* [errc <- filepath.WalkDir(...)] *)
  | WCloseDirPaths                           (* deferred [close(dirPaths)] *)
  | WCloseFilePaths                          (* deferred [close(filePaths)] *)
  | WExited.

(** Program points of a [digester] goroutine. *)
Inductive digester_pc :=
  | DRange                 (* [for path := range filePaths] *)
  | DHashing (p : string)  (* [data, err := hashFile(path)] *)
  | DSelect (r : result)   (* the [select] on [ctx.Done()] and [c <- result] *)
  | DExited.

(** Program points of the goroutine running [DigestAll] itself. *)
Inductive agg_pc :=
  | ALoop
  | AReturned (o : outcome).

Record state := mkState {
  ctx_err : option go_error;          (* [ctx.Err()] *)
  walker : walker_pc;
  digesters : list digester_pc;
  closer_done : bool;                 (* the goroutine running [wg.Wait(); close(c)] *)
  filePaths_closed : bool;
  dirPaths_closed : bool;
  c_closed : bool;
  errc_buf : option (option go_error);  (* [errc] has capacity 1 *)
  errc_closed : bool;
  aggr : agg;
  apc : agg_pc;
  filesFound : Z;
  filesHashed : Z;
  walk_out : list logline             (* what the walker printed *)
}.

(** [DigestAll(ctx, root, hasher, numWorkers, ...)] right after it has
    started the walker and [numWorkers] digesters; [entries] is the walk
    of the tree at [root], [ctx0] is [ctx.Err()] at the call. *)
Definition init (ctx0 : option go_error) (entries : list entry) (numWorkers : nat) : state :=
  mkState ctx0 (WCallback entries) (repeat DRange numWorkers) false
    false false false None false agg_init ALoop 0 0 [].

(** Field updates. *)
Definition set_ctx (e : option go_error) (s : state) : state :=
  mkState e (walker s) (digesters s) (closer_done s) (filePaths_closed s)
    (dirPaths_closed s) (c_closed s) (errc_buf s) (errc_closed s) (aggr s)
    (apc s) (filesFound s) (filesHashed s) (walk_out s).
Definition set_walker (w : walker_pc) (s : state) : state :=
  mkState (ctx_err s) w (digesters s) (closer_done s) (filePaths_closed s)
    (dirPaths_closed s) (c_closed s) (errc_buf s) (errc_closed s) (aggr s)
    (apc s) (filesFound s) (filesHashed s) (walk_out s).
Definition set_digester (i : nat) (d : digester_pc) (s : state) : state :=
  mkState (ctx_err s) (walker s) (<[i := d]> (digesters s)) (closer_done s)
    (filePaths_closed s) (dirPaths_closed s) (c_closed s) (errc_buf s)
    (errc_closed s) (aggr s) (apc s) (filesFound s) (filesHashed s) (walk_out s).
Definition set_closed_c (s : state) : state :=
  mkState (ctx_err s) (walker s) (digesters s) true (filePaths_closed s)
    (dirPaths_closed s) true (errc_buf s) (errc_closed s) (aggr s)
    (apc s) (filesFound s) (filesHashed s) (walk_out s).
Definition set_closed_filePaths (s : state) : state :=
  mkState (ctx_err s) (walker s) (digesters s) (closer_done s) true
    (dirPaths_closed s) (c_closed s) (errc_buf s) (errc_closed s) (aggr s)
    (apc s) (filesFound s) (filesHashed s) (walk_out s).
Definition set_closed_dirPaths (s : state) : state :=
  mkState (ctx_err s) (walker s) (digesters s) (closer_done s) (filePaths_closed s)
    true (c_closed s) (errc_buf s) (errc_closed s) (aggr s)
    (apc s) (filesFound s) (filesHashed s) (walk_out s).
Definition set_errc_buf (b : option (option go_error)) (s : state) : state :=
  mkState (ctx_err s) (walker s) (digesters s) (closer_done s) (filePaths_closed s)
    (dirPaths_closed s) (c_closed s) b (errc_closed s) (aggr s)
    (apc s) (filesFound s) (filesHashed s) (walk_out s).
Definition set_aggr (a : agg) (s : state) : state :=
  mkState (ctx_err s) (walker s) (digesters s) (closer_done s) (filePaths_closed s)
    (dirPaths_closed s) (c_closed s) (errc_buf s) (errc_closed s) a
    (apc s) (filesFound s) (filesHashed s) (walk_out s).
Definition set_apc (p : agg_pc) (s : state) : state :=
  mkState (ctx_err s) (walker s) (digesters s) (closer_done s) (filePaths_closed s)
    (dirPaths_closed s) (c_closed s) (errc_buf s) (errc_closed s) (aggr s)
    p (filesFound s) (filesHashed s) (walk_out s).
Definition incr_found (s : state) : state :=
  mkState (ctx_err s) (walker s) (digesters s) (closer_done s) (filePaths_closed s)
    (dirPaths_closed s) (c_closed s) (errc_buf s) (errc_closed s) (aggr s)
    (apc s) (add1_u64 (filesFound s)) (filesHashed s) (walk_out s).
Definition incr_hashed (s : state) : state :=
  mkState (ctx_err s) (walker s) (digesters s) (closer_done s) (filePaths_closed s)
    (dirPaths_closed s) (c_closed s) (errc_buf s) (errc_closed s) (aggr s)
    (apc s) (filesFound s) (add1_u64 (filesHashed s)) (walk_out s).
Definition print_walk (l : logline) (s : state) : state :=
  mkState (ctx_err s) (walker s) (digesters s) (closer_done s) (filePaths_closed s)
    (dirPaths_closed s) (c_closed s) (errc_buf s) (errc_closed s) (aggr s)
    (apc s) (filesFound s) (filesHashed s) (walk_out s ++ [l]).

(** Who moves next. Rendezvous on an unbuffered channel moves sender and
    receiver together. *)
Inductive choice :=
  | ChCancel (deadline : bool)  (* the owner of [ctx] cancels it *)
  | ChWalker                    (* a local step of the walker *)
  | ChHandFile (i : nat)        (* [filePaths <- path] meets digester [i]'s receive *)
  | ChDigester (i : nat)        (* a local step of digester [i] *)
  | ChCloser                    (* [wg.Wait()] returns and [close(c)] runs *)
  | ChRecvResult (i : nat)      (* [case r, ok = <-c] with digester [i]'s send *)
  | ChRecvClosedC               (* [case r, ok = <-c] on the closed [c] *)
  | ChRecvDir                   (* [case dirPath, ok = <-dirPaths] with the walker's send *)
  | ChRecvClosedDirPaths
  | ChRecvErrc                  (* [case walkErr, ok = <-errc] *)
  | ChExit.                     (* the exit test of the loop holds *)

Definition is_exited (d : digester_pc) : bool :=
  match d with DExited => true | _ => false end.

Section Pipeline.

Variable root : string.
Variable hasher : HashFunc.

(** The walker goroutine (lines 29-58): the callback checks [ctx.Done()]
    first; a non-nil callback result ends [WalkDir] with that error. *)
Definition walker_local (s : state) : option state :=
  match walker s with
  | WCallback (e :: es) =>
      match ctx_err s with
      | Some err => Some (set_walker (WSendErrc (Some err)) s)
      | None =>
          match e with
          | EntryErr p err => Some (set_walker (WCallback es) (print_walk (WarnAccess p err) s))
          | EntryDir p =>
              if String.eqb p root then Some (set_walker (WCallback es) s)
              else Some (set_walker (WSendDir p es) s)
          | EntryReg p => Some (set_walker (WSendFile p es) (incr_found s))
          | EntryOther _ => Some (set_walker (WCallback es) s)
          end
      end
  | WCallback [] => Some (set_walker (WSendErrc None) s)
  | WSendErrc v =>
      match errc_buf s with
      | None => Some (set_walker WCloseDirPaths (set_errc_buf (Some v) s))
      | Some _ => None
      end
  | WCloseDirPaths => Some (set_walker WCloseFilePaths (set_closed_dirPaths s))
  | WCloseFilePaths => Some (set_walker WExited (set_closed_filePaths s))
  | _ => None
  end.

(** A local step of a digester (lines 72-87). *)
Definition digester_local (i : nat) (s : state) : option state :=
  match digesters s !! i with
  | Some DRange => if filePaths_closed s then Some (set_digester i DExited s) else None
  | Some (DHashing p) =>
      let '(data, err) := hasher p in Some (set_digester i (DSelect (mkResult p data err)) s)
  | Some (DSelect _) =>
      match ctx_err s with Some _ => Some (set_digester i DExited s) | None => None end
  | _ => None
  end.

(** The aggregator's receive of a result, then the case body. *)
Definition recv_result (i : nat) (s : state) : option state :=
  match apc s, a_c (aggr s), digesters s !! i with
  | ALoop, true, Some (DSelect r) =>
      let s1 := set_aggr (agg_step (aggr s) (EvResult r)) (set_digester i DRange s) in
      Some (match rerr r with None => incr_hashed s1 | Some _ => s1 end)
  | _, _, _ => None
  end.

Definition exec (ch : choice) (s : state) : option state :=
  match ch with
  | ChCancel deadline =>
      match ctx_err s with
      | None => Some (set_ctx (Some (if deadline then ErrDeadlineExceeded else ErrCanceled)) s)
      | Some _ => None
      end
  | ChWalker => walker_local s
  | ChHandFile i =>
      match walker s, digesters s !! i with
      | WSendFile p es, Some DRange => Some (set_digester i (DHashing p) (set_walker (WCallback es) s))
      | _, _ => None
      end
  | ChDigester i => digester_local i s
  | ChCloser =>
      if closer_done s then None
      else if forallb is_exited (digesters s) then Some (set_closed_c s) else None
  | ChRecvResult i => recv_result i s
  | ChRecvClosedC =>
      match apc s, a_c (aggr s), c_closed s with
      | ALoop, true, true => Some (set_aggr (agg_step (aggr s) EvClosedC) s)
      | _, _, _ => None
      end
  | ChRecvDir =>
      match apc s, a_dirPaths (aggr s), walker s with
      | ALoop, true, WSendDir p es =>
          Some (set_aggr (agg_step (aggr s) (EvDir p)) (set_walker (WCallback es) s))
      | _, _, _ => None
      end
  | ChRecvClosedDirPaths =>
      match apc s, a_dirPaths (aggr s), dirPaths_closed s with
      | ALoop, true, true => Some (set_aggr (agg_step (aggr s) EvClosedDirPaths) s)
      | _, _, _ => None
      end
  | ChRecvErrc =>
      match apc s, a_errc (aggr s), errc_buf s with
      | ALoop, true, Some v => Some (set_aggr (agg_step (aggr s) (EvErrc v)) (set_errc_buf None s))
      | ALoop, true, None =>
          if errc_closed s then Some (set_aggr (agg_step (aggr s) EvClosedErrc) s) else None
      | _, _, _ => None
      end
  | ChExit =>
      match apc s with
      | ALoop => if agg_exit (aggr s)
                 then Some (set_apc (AReturned (digestAll_return (ctx_err s) (aggr s))) s)
                 else None
      | AReturned _ => None
      end
  end.

Definition step (s s' : state) : Prop := exists ch, exec ch s = Some s'.

Definition reachable (s0 s : state) : Prop := rtc step s0 s.

(** A scheduler replaying a list of choices. *)
Fixpoint run (chs : list choice) (s : state) : option state :=
  match chs with
  | [] => Some s
  | ch :: chs' => match exec ch s with Some s' => run chs' s' | None => None end
  end.

End Pipeline.

(* ------------------------------------------------------------------ *)
(** ** [hardlinkDuplicates] and [areFilesHardLinked] (main.go, part_005) *)

(** The filesystem as the consolidation pass sees it: each existing path
    names a storage object (device and inode, folded into one number);
    [fs_pinned] are the paths whose removal the system refuses (e.g. a
    read-only parent directory); [fs_dev] gives the device of the
    directory holding a path, and [link(2)] across devices fails. These
    failure conditions are properties of the tree, so a second pass
    over the same tree meets the same ones. *)
Record fsys := mkFs {
  fs_inode : gmap string N;
  fs_pinned : gset string;
  fs_dev : string -> N
}.

Definition set_inodes (m : gmap string N) (fs : fsys) : fsys :=
  mkFs m (fs_pinned fs) (fs_dev fs).

(** [os.Stat]. *)
Definition os_Stat (fs : fsys) (p : string) : N + go_error :=
  match fs_inode fs !! p with
  | Some ino => inl ino
  | None => inr (ErrIO "stat: no such file or directory")
  end.

(** [os.Remove]. *)
Definition os_Remove (fs : fsys) (p : string) : fsys * option go_error :=
  match fs_inode fs !! p with
  | None => (fs, Some (ErrIO "remove: no such file or directory"))
  | Some _ =>
      if decide (p ∈ fs_pinned fs) then (fs, Some (ErrIO "remove: permission denied"))
      else (set_inodes (delete p (fs_inode fs)) fs, None)
  end.

(** [os.Link(oldname, newname)]. *)
Definition os_Link (fs : fsys) (oldname newname : string) : fsys * option go_error :=
  match fs_inode fs !! oldname, fs_inode fs !! newname with
  | None, _ => (fs, Some (ErrIO "link: no such file or directory"))
  | Some _, Some _ => (fs, Some (ErrIO "link: file exists"))
  | Some ino, None =>
      if N.eqb (fs_dev fs oldname) (fs_dev fs newname)
      then (set_inodes (<[newname := ino]> (fs_inode fs)) fs, None)
      else (fs, Some (ErrIO "link: invalid cross-device link"))
  end.

(** [areFilesHardLinked(path1, path2)]: both [os.Stat] calls, then
    [os.SameFile]. *)
Definition areFilesHardLinked (fs : fsys) (path1 path2 : string) : bool * option go_error :=
  match os_Stat fs path1 with
  | inr err => (false, Some err)
  | inl info1 =>
      match os_Stat fs path2 with
      | inr err => (false, Some err)
      | inl info2 => (N.eqb info1 info2, None)
      end
  end.

(** Filesystem operations that took effect, in order. *)
Inductive fs_op :=
  | OpRemove (p : string)
  | OpLink (oldname newname : string).

(** The state threaded through the pass: the filesystem,
    [d.linksCreatedCount], and the operations performed. *)
Record hl_state := mkHl {
  hl_fs : fsys;
  linksCreatedCount : Z;
  hl_ops : list fs_op
}.

(** The body of [for _, duplicatePath := range duplicatePaths]; every
    failure is logged and [continue]s. *)
Definition link_candidate (originalPath : string) (st : hl_state) (duplicatePath : string)
  : hl_state :=
  let fs := hl_fs st in
  match areFilesHardLinked fs originalPath duplicatePath with
  | (_, Some _) => st
  | (true, None) => st
  | (false, None) =>
      match os_Remove fs duplicatePath with
      | (_, Some _) => st
      | (fs1, None) =>
          match os_Link fs1 originalPath duplicatePath with
          | (fs2, Some _) => mkHl fs2 (linksCreatedCount st) (hl_ops st ++ [OpRemove duplicatePath])
          | (fs2, None) =>
              mkHl fs2 (add1_u64 (linksCreatedCount st))
                (hl_ops st ++ [OpRemove duplicatePath; OpLink originalPath duplicatePath])
          end
      end
  end.

(** One group: [originalPath := paths[0]], [duplicatePaths := paths[1:]];
    indexing an empty slice panics ([None]). *)
Definition hardlink_group (st : hl_state) (paths : list string) : option hl_state :=
  match paths with
  | [] => None
  | originalPath :: duplicatePaths => Some (foldl (link_candidate originalPath) st duplicatePaths)
  end.

(** [hardlinkDuplicates] over [d.fileByteMapDups] in the order [groups]
    in which Go's [range] visits the map's entries. *)
Fixpoint hardlinkDuplicates (groups : list (string * list string)) (st : hl_state)
  : option hl_state :=
  match groups with
  | [] => Some st
  | (_, paths) :: rest =>
      match hardlink_group st paths with
      | Some st' => hardlinkDuplicates rest st'
      | None => None
      end
  end.

(* ------------------------------------------------------------------ *)
(** ** Auxiliary notions used by the proofs *)

(** The successful results of a run, as [(path, sum)] pairs. *)
Definition ok_pairs (rs : list result) : list (string * HashBytes) :=
  omap (fun r => match rerr r with None => Some (rpath r, rsum r) | Some _ => None end) rs.

(** How the aggregator's table [m] and the [findDuplicates] maps agree
    after the same sequence: [fileByteMap] holds the first path of each
    key, [fileByteMapDups] the whole list once it has two paths. *)
Definition promotes (m : gmap string (list string)) (d : dedup) : Prop :=
  forall k,
    (m !! k = None /\ fileByteMap d !! k = None /\ fileByteMapDups d !! k = None) \/
    (exists p ps, m !! k = Some (p :: ps) /\ fileByteMap d !! k = Some p /\
       fileByteMapDups d !! k = match ps with [] => None | _ => Some (p :: ps) end).

(* ------------------------------------------------------------------ *)
(** ** Concrete trees and runs *)

(** Scenario A of the tests: [r/a] = "alpha", [r/b] = "beta",
    [r/sub/c] = "alpha". File contents and digests are stood in for by
    one byte each; the digest function is the identity on them. *)
Definition contentA (p : string) : list Byte.byte :=
  if String.eqb p "r/b" then [Byte.x02] else [Byte.x01].

Definition hasherA : HashFunc := fun p => (contentA p, None).

Definition entriesA : list entry :=
  [EntryDir "r"; EntryReg "r/a"; EntryReg "r/b"; EntryDir "r/sub"; EntryReg "r/sub/c"].

(** The events the aggregator receives in one schedule of scenario A. *)
Definition eventsA : list agg_event :=
  [EvResult (mkResult "r/a" (contentA "r/a") None); EvDir "r/sub";
   EvResult (mkResult "r/b" (contentA "r/b") None);
   EvResult (mkResult "r/sub/c" (contentA "r/sub/c") None);
   EvErrc None; EvClosedDirPaths; EvClosedC].

(** Scenario D: three identical files, the second cannot be read. *)
Definition entriesD : list entry :=
  [EntryDir "r"; EntryReg "r/a"; EntryReg "r/b"; EntryReg "r/c"].

Definition hasherD : HashFunc :=
  fun p => if String.eqb p "r/b" then ([], Some (ErrIO "open r/b: permission denied"))
           else ([Byte.x01], None).

(** A schedule of scenario D with one digester, up to the point where
    every goroutine but the aggregator has exited. *)
Definition scheduleD : list choice :=
  [ChWalker; ChWalker; ChHandFile 0; ChDigester 0; ChRecvResult 0;
   ChWalker; ChHandFile 0; ChDigester 0; ChRecvResult 0;
   ChWalker; ChHandFile 0; ChDigester 0; ChRecvResult 0;
   ChWalker; ChWalker; ChWalker; ChWalker; ChDigester 0; ChCloser;
   ChRecvErrc; ChRecvClosedC; ChRecvClosedDirPaths].

(** A schedule of scenario A with two digesters and a context that was
    already cancelled when [DigestAll] was called. *)
Definition scheduleA_cancelled : list choice :=
  [ChWalker; ChWalker; ChWalker; ChWalker; ChDigester 0; ChDigester 1; ChCloser;
   ChRecvErrc; ChRecvClosedC; ChRecvClosedDirPaths].

(** Bookkeeping for the counters: regular files the walker has still to
    classify, and paths counted in [filesFound] whose result has not yet
    reached the aggregator. *)
Fixpoint regs (es : list entry) : Z :=
  match es with
  | [] => 0
  | EntryReg _ :: es' => 1 + regs es'
  | _ :: es' => regs es'
  end.

Definition regs_left (w : walker_pc) : Z :=
  match w with
  | WCallback es | WSendDir _ es | WSendFile _ es => regs es
  | _ => 0
  end.

Definition walker_holds (w : walker_pc) : Z :=
  match w with WSendFile _ _ => 1 | _ => 0 end.

Definition busy (d : digester_pc) : Z :=
  match d with DHashing _ | DSelect _ => 1 | _ => 0 end.

Fixpoint zsum (f : digester_pc -> Z) (ds : list digester_pc) : Z :=
  match ds with [] => 0 | d :: ds' => f d + zsum f ds' end.

Definition inflight (s : state) : Z := walker_holds (walker s) + zsum busy (digesters s).

Definition counters_ok (total : Z) (s : state) : Prop :=
  0 <= filesHashed s /\ filesHashed s + inflight s <= filesFound s /\
  filesFound s + regs_left (walker s) <= total /\ total < 2 ^ 64.

(** A state in which no regular file is left to classify and none is in
    flight: the walker holds no path and every digester is idle or gone. *)
Definition quiet (s : state) : Prop :=
  walker_holds (walker s) = 0 /\ regs_left (walker s) = 0 /\ zsum busy (digesters s) = 0.

(** No key of an appended table holds the empty list. *)
Definition no_empty_group (m : gmap string (list string)) : Prop :=
  forall k, m !! k <> Some [].

(** The aggregator's loop cannot be left: [errc] is never closed (so no
    receive sets it to nil) while the loop still selects on it. *)
Definition blocked (s : state) : Prop :=
  errc_closed s = false /\ a_errc (aggr s) = true /\ apc s = ALoop.

(** The walker is blocked on a send to [filePaths] or [dirPaths]. *)
Definition walker_emits (w : walker_pc) : bool :=
  match w with WSendFile _ _ | WSendDir _ _ => true | _ => false end.

(** What stays true after the context is cancelled before the start. *)
Definition cancelled_inv (s : state) : Prop :=
  ctx_err s <> None /\ filesFound s = 0 /\ filesHashed s = 0 /\
  walker_emits (walker s) = false /\ zsum busy (digesters s) = 0 /\
  discoveredDirs (aggr s) = [] /\ hashesToPaths (aggr s) = ∅.

(** The state reached by scenario D's schedule. *)
Definition stateD : state :=
  match run "r" hasherD scheduleD (init None entriesD 1) with
  | Some s => s
  | None => init None entriesD 1
  end.

(** The state reached by the cancelled schedule of scenario A. *)
Definition stateA_cancelled : state :=
  match run "r" hasherA scheduleA_cancelled (init (Some ErrCanceled) entriesA 2) with
  | Some s => s
  | None => init (Some ErrCanceled) entriesA 2
  end.

(** A pair (original, candidate) on which [link_candidate] has nothing
    left to do: one of the two is missing (the stat check fails), the
    candidate cannot be removed, or both name the same object. *)
Definition settled (fs : fsys) (o d : string) : Prop :=
  fs_inode fs !! o = None \/ fs_inode fs !! d = None \/ d ∈ fs_pinned fs \/
  exists ino, fs_inode fs !! o = Some ino /\ fs_inode fs !! d = Some ino.

(** The path an operation removes or creates. *)
Definition op_target (op : fs_op) : string :=
  match op with OpRemove p => p | OpLink _ n => n end.

(** The candidates of the groups, in visiting order. *)
Definition cands (gs : list (string * list string)) : list string :=
  concat (map (fun g => tail (snd g)) gs).

(** A tree with one group of four identical files: "d" can be relinked,
    "e" sits in a directory that refuses its removal, "f" is on another
    device than "o". *)
Definition fsX : fsys :=
  mkFs (list_to_map [("o", 1%N); ("d", 2%N); ("e", 3%N); ("f", 4%N)]) {[ "e" ]}
    (fun p => if String.eqb p "f" then 1%N else 0%N).

Definition tableX : gmap string (list string) := {[ "h" := ["o"; "d"; "e"; "f"] ]}.

Definition hlX0 : hl_state := mkHl fsX 0 [].

Definition hlX1 : hl_state :=
  match hardlinkDuplicates (map_to_list tableX) hlX0 with Some st => st | None => hlX0 end.



(** A tree with one regular file below the root. *)
Definition entriesZ : list entry := [EntryDir "r"; EntryReg "r/a"].

(* ------------------------------------------------------------------ *)
(** ** Duplicate tables, the walk and the summary *)

(** The paths of a file list, in list order, whose digest encodes to [k]. *)
Definition paths_with (k : string) (fileMap : list (string * HashBytes)) : list string :=
  map fst (filter (fun e : string * HashBytes => encodeToString e.2 = k) fileMap).

(** All paths stored in a table of path lists, in the table's enumeration order. *)
Definition table_paths (m : gmap string (list string)) : list string :=
  concat (map snd (map_to_list m)).

(** Per group, the paths beyond the first, summed over a table. *)
Definition extra_copies (m : gmap string (list string)) : nat :=
  sum_list_with (fun kv : string * list string => length kv.2 - 1)%nat (map_to_list m).

(** The directories of a walk other than the root, in walk order: what
    the walker sends on [dirPaths]. *)
Fixpoint dirs_of (root : string) (es : list entry) : list string :=
  match es with
  | [] => []
  | EntryDir p :: es' => if String.eqb p root then dirs_of root es' else p :: dirs_of root es'
  | _ :: es' => dirs_of root es'
  end.

(** The directories the walker has still to send from its current point. *)
Definition walker_dirs (root : string) (w : walker_pc) : list string :=
  match w with
  | WCallback es | WSendFile _ es => dirs_of root es
  | WSendDir p es => p :: dirs_of root es
  | _ => []
  end.

(** The directories collected so far followed by those still to be sent
    are a prefix of the walk's directories, all of them while the
    context is not cancelled. *)
Definition dirs_inv (root : string) (entries : list entry) (s : state) : Prop :=
  (exists rest, discoveredDirs (aggr s) ++ walker_dirs root (walker s) ++ rest = dirs_of root entries) /\
  (ctx_err s = None -> discoveredDirs (aggr s) ++ walker_dirs root (walker s) = dirs_of root entries).

(** The regular files of a walk, in walk order. *)
Fixpoint reg_paths (es : list entry) : list string :=
  match es with
  | [] => []
  | EntryReg p :: es' => p :: reg_paths es'
  | _ :: es' => reg_paths es'
  end.

(** The regular files the walker holds or has still to send. *)
Definition walker_paths (w : walker_pc) : list string :=
  match w with
  | WCallback es | WSendDir _ es => reg_paths es
  | WSendFile p es => p :: reg_paths es
  | _ => []
  end.

(** The path a digester holds, if any. *)
Definition digester_paths (d : digester_pc) : list string :=
  match d with DHashing p => [p] | DSelect r => [rpath r] | _ => [] end.

(** The paths in the aggregator's table, with those held by digesters
    and the walker, form a sub-multiset of the walk's regular files. *)
Definition paths_inv (entries : list entry) (s : state) : Prop :=
  table_paths (hashesToPaths (aggr s)) ++ concat (map digester_paths (digesters s)) ++
    walker_paths (walker s) ⊆+ reg_paths entries.

(** Each path in the table was hashed without error to a digest whose
    hex encoding is its key; each pending result is what the hash
    function returned. *)
Definition hash_inv (hasher : HashFunc) (s : state) : Prop :=
  (forall k ps p, hashesToPaths (aggr s) !! k = Some ps -> p ∈ ps ->
     exists sum, hasher p = (sum, None) /\ encodeToString sum = k) /\
  (forall i r, digesters s !! i = Some (DSelect r) -> hasher (rpath r) = (rsum r, rerr r)).

(** The counters invariant, with no empty group in the table, and
    [filesHashed] equal to the number of paths in the table. *)
Definition hashed_inv (total : Z) (s : state) : Prop :=
  counters_ok total s /\ no_empty_group (hashesToPaths (aggr s)) /\
  filesHashed s = Z.of_nat (length (table_paths (hashesToPaths (aggr s)))).

(** Go's [int] (64 bits) wrap-around. *)
Definition wrap_int64 (x : Z) : Z := (x + 2 ^ 63) mod 2 ^ 64 - 2 ^ 63.

(** [reportSummary] of src/main.go: the three numbers it prints, from
    the hashed-files counter, the duplicate map enumerated in [range]
    order, and the discovered directories. [totalDuplicates] is an
    [int]; [uint64(totalDuplicates)] and the subtraction wrap modulo 2^64. *)
Definition reportSummary (filesHashedCount : Z) (fileByteMapDups : list (string * list string))
    (discoveredPaths : list string) : Z * Z * nat :=
  let totalFilesHashed := filesHashedCount in
  let totalDuplicates :=
    foldl (fun acc '(_, paths) => wrap_int64 (acc + (Z.of_nat (length paths) - 1))) 0
      fileByteMapDups in
  let uniqueFiles := (totalFilesHashed - totalDuplicates mod 2 ^ 64) mod 2 ^ 64 in
  (totalFilesHashed, uniqueFiles, length discoveredPaths).

(** Whether an operation is a link creation. *)
Definition is_link (op : fs_op) : bool := match op with OpLink _ _ => true | _ => false end.

(** A sequence of operations made of removals, each either alone or
    followed by a link that recreates the removed path. *)
Inductive ops_blocks : list fs_op -> Prop :=
  | blocks_nil : ops_blocks []
  | blocks_remove (d : string) (l : list fs_op) :
      ops_blocks l -> ops_blocks (OpRemove d :: l)
  | blocks_relink (o d : string) (l : list fs_op) :
      ops_blocks l -> ops_blocks (OpRemove d :: OpLink o d :: l).

(** What a candidate [d] of original [o] names after a pass: its old
    object, nothing, or the original's old object. *)
Definition candidate_outcome (fs0 fs1 : fsys) (o d : string) : Prop :=
  fs_inode fs1 !! d = fs_inode fs0 !! d \/ fs_inode fs1 !! d = None \/
  fs_inode fs1 !! d = fs_inode fs0 !! o.

(** A complete schedule of scenario A with one digester. *)
Definition scheduleA_full : list choice :=
  [ChWalker; ChWalker; ChHandFile 0; ChDigester 0; ChRecvResult 0;
   ChWalker; ChHandFile 0; ChDigester 0; ChRecvResult 0;
   ChWalker; ChRecvDir; ChWalker; ChHandFile 0; ChDigester 0; ChRecvResult 0;
   ChWalker; ChWalker; ChWalker; ChWalker; ChDigester 0; ChCloser;
   ChRecvErrc; ChRecvClosedC; ChRecvClosedDirPaths].
Definition stateA : state :=
  match run "r" hasherA scheduleA_full (init None entriesA 1) with
  | Some s => s
  | None => init None entriesA 1
  end.
(** Scenario A with one digester, cancelled once the three files have
    been hashed and [r/sub] received, while the walker has still to
    report the end of the walk; then every goroutine runs as far as it
    can. *)
Definition scheduleA_late_cancel : list choice :=
  [ChWalker; ChWalker; ChHandFile 0; ChDigester 0; ChRecvResult 0;
   ChWalker; ChHandFile 0; ChDigester 0; ChRecvResult 0;
   ChWalker; ChRecvDir; ChWalker; ChHandFile 0; ChDigester 0; ChRecvResult 0;
   ChCancel false; ChWalker; ChWalker; ChWalker; ChWalker; ChDigester 0; ChCloser;
   ChRecvErrc; ChRecvClosedC; ChRecvClosedDirPaths].

(** The state reached by [scheduleA_late_cancel]. *)
Definition stateA_late_cancel : state :=
  match run "r" hasherA scheduleA_late_cancel (init None entriesA 1) with
  | Some s => s
  | None => init None entriesA 1
  end.


(** A file list with two paths of the same digest and one of another. *)
Definition fileMapW : list (string * HashBytes) :=
  [("a", [Byte.x01]); ("b", [Byte.x02]); ("c", [Byte.x01])].

(* ================================================================== *)
(** * Properties *)

(** ** Hex encoding is injective *)

Lemma hex_byte_roundtrip (b : Byte.byte) :
  match unhex (hex_char (N.shiftr (Byte.to_N b) 4)),
        unhex (hex_char (N.land (Byte.to_N b) 15)) with
  | Some hi, Some lo => Byte.of_N (hi * 16 + lo)%N
  | _, _ => None
  end = Some b.
Proof. destruct b; reflexivity. Qed.

Lemma decode_encode (bs : HashBytes) : decodeString (encodeToString bs) = Some bs.
Proof.
  induction bs as [|b bs IH]; [reflexivity|].
  cbn [encodeToString decodeString]. rewrite IH.
  pose proof (hex_byte_roundtrip b) as Hb.
  destruct (unhex _) as [hi|]; [|discriminate].
  destruct (unhex _) as [lo|]; [|discriminate].
  rewrite Hb. reflexivity.
Qed.

Lemma encodeToString_inj (a b : HashBytes) :
  encodeToString a = encodeToString b -> a = b.
Proof.
  intros H. apply (f_equal decodeString) in H.
  rewrite !decode_encode in H. congruence.
Qed.

(** ** Tables built by appending paths *)

Lemma lookup_append_path (m : gmap string (list string)) (k p k' : string) :
  append_path m k p !! k' =
  if decide (k = k') then Some (default [] (m !! k) ++ [p]) else m !! k'.
Proof.
  unfold append_path. case_decide as Hk.
  - subst. apply lookup_insert_eq.
  - apply lookup_insert_ne. exact Hk.
Qed.

Lemma append_path_no_empty (m : gmap string (list string)) (k p : string) :
  no_empty_group m -> no_empty_group (append_path m k p).
Proof.
  intros Hm k'. rewrite lookup_append_path. case_decide.
  - intros Heq. inversion Heq as [H1]. destruct (default [] (m !! k)); discriminate.
  - apply Hm.
Qed.

Lemma agg_loop_hashes (evs : list agg_event) (a : agg) :
  hashesToPaths (foldl agg_step a evs) =
  foldl (fun m '(p, sum) => append_path m (encodeToString sum) p)
    (hashesToPaths a) (ok_pairs (results_of evs)).
Proof.
  revert a. induction evs as [|ev evs IH]; intros a; [reflexivity|].
  destruct ev as [r| |p| |v|]; simpl; rewrite IH; try reflexivity.
  destruct (rerr r); reflexivity.
Qed.

Lemma hashesToPaths_agg_loop (evs : list agg_event) :
  hashesToPaths (agg_loop evs) = hashes_to_paths (ok_pairs (results_of evs)).
Proof. unfold agg_loop, hashes_to_paths. apply agg_loop_hashes. Qed.

(** ** The promotion rule of [findDuplicates] *)

Lemma promotes_init : promotes ∅ dedup_init.
Proof. intros k. left. rewrite !lookup_empty. auto. Qed.

Lemma promotes_step (m : gmap string (list string)) (d : dedup) (path : string) (hb : HashBytes) :
  promotes m d ->
  promotes (append_path m (encodeToString hb) path) (findDuplicates_step d (path, hb)).
Proof.
  intros H k. unfold findDuplicates_step.
  destruct (H (encodeToString hb)) as [(Hm & Hf & Hd) | (p & ps & Hm & Hf & Hd)];
    rewrite Hf; simpl; rewrite ?lookup_append_path.
  - destruct (decide (encodeToString hb = k)) as [<-|Hne].
    + right. exists path, []. rewrite Hm, lookup_insert_eq. auto.
    + rewrite lookup_insert_ne by done. apply H.
  - destruct (decide (encodeToString hb = k)) as [<-|Hne].
    + right. exists p, (ps ++ [path]). rewrite Hm. split; [reflexivity|]. split; [exact Hf|].
      destruct ps as [|q qs]; rewrite Hd; simpl.
      * rewrite lookup_insert_eq. reflexivity.
      * rewrite Hd. reflexivity.
    + destruct (fileByteMapDups d !! encodeToString hb);
        rewrite ?lookup_insert_ne by done; apply H.
Qed.

Lemma promotes_fold (rs : list (string * HashBytes)) (m : gmap string (list string)) (d : dedup) :
  promotes m d ->
  promotes (foldl (fun m '(p, sum) => append_path m (encodeToString sum) p) m rs)
           (foldl findDuplicates_step d rs).
Proof.
  revert m d. induction rs as [|[p hb] rs IH]; intros m d H; simpl; [exact H|].
  apply IH. apply promotes_step. exact H.
Qed.

Lemma promotes_duplicates (m : gmap string (list string)) (d : dedup) :
  promotes m d -> duplicates_of m = fileByteMapDups d.
Proof.
  intros H. apply map_eq. intros k. unfold duplicates_of.
  destruct (H k) as [(Hm & _ & Hd) | (p & ps & Hm & _ & Hd)]; rewrite Hd.
  - apply map_lookup_filter_None. left. exact Hm.
  - destruct ps as [|q qs].
    + apply map_lookup_filter_None. right. intros x Hx.
      rewrite Hm in Hx. inversion Hx. simpl. lia.
    + apply map_lookup_filter_Some. split; [exact Hm | simpl; lia].
Qed.

(** ** Membership in the aggregator's table *)

Lemma fold_append_member (l : list (string * HashBytes)) (m0 : gmap string (list string))
    (k p : string) :
  p ∈ default [] (foldl (fun m '(q, sum) => append_path m (encodeToString sum) q) m0 l !! k) <->
  p ∈ default [] (m0 !! k) \/ exists sum, (p, sum) ∈ l /\ encodeToString sum = k.
Proof.
  revert m0. induction l as [|[q sum] l IH]; intros m0; simpl.
  - split; [tauto|]. intros [H|(sum & H & _)]; [exact H|]. apply not_elem_of_nil in H. contradiction.
  - rewrite IH, lookup_append_path. case_decide as Hk; simpl.
    + subst k. rewrite elem_of_app, list_elem_of_singleton.
      setoid_rewrite elem_of_cons. split.
      * intros [[H| ->]|(s' & H & Hs)]; eauto.
      * intros [H|(s' & [Heq|H] & Hs)]; [eauto| |eauto].
        inversion Heq; subst. auto.
    + setoid_rewrite elem_of_cons. split.
      * intros [H|(s' & H & Hs)]; eauto.
      * intros [H|(s' & [Heq|H] & Hs)]; [eauto| |eauto].
        inversion Heq; subst. contradiction.
Qed.

Lemma ok_pairs_member (rs : list result) (p : string) (sum : HashBytes) :
  (p, sum) ∈ ok_pairs rs <-> exists r, r ∈ rs /\ rerr r = None /\ rpath r = p /\ rsum r = sum.
Proof.
  unfold ok_pairs. rewrite list_elem_of_omap. split.
  - intros (r & Hr & Hf). destruct (rerr r) eqn:He; [discriminate|].
    inversion Hf; subst. eauto.
  - intros (r & Hr & He & <- & <-). exists r. rewrite He. auto.
Qed.

Lemma agg_table_member (evs : list agg_event) (k p : string) :
  p ∈ default [] (hashesToPaths (agg_loop evs) !! k) <->
  exists r, r ∈ results_of evs /\ rerr r = None /\ rpath r = p /\ encodeToString (rsum r) = k.
Proof.
  rewrite hashesToPaths_agg_loop. unfold hashes_to_paths.
  rewrite fold_append_member, lookup_empty. simpl. split.
  - intros [H|(sum & H & Hk)]; [apply not_elem_of_nil in H; contradiction|].
    apply ok_pairs_member in H as (r & ? & ? & ? & ?). subst. eauto.
  - intros (r & ? & ? & ? & ?). right. exists (rsum r). split; [|assumption].
    apply ok_pairs_member. eauto.
Qed.

Lemma map_nonempty {V} (m : gmap string V) (k : string) (v : V) :
  m !! k = Some v -> m <> ∅.
Proof. intros H ->. rewrite lookup_empty in H. discriminate. Qed.

(* ------------------------------------------------------------------ *)
(** ** The table returned by [DigestAll] *)

(** Claim C3: for every sequence of digest results, the duplicate table
    of the final aggregator (append each successful path under the hex
    of its digest, then keep the keys with more than one path) is equal
    to the [fileByteMapDups] that [findDuplicates]' first-seen promotion
    rule builds from the same successful results in the same order. *)
Theorem aggregator_table_eq_findDuplicates (evs : list agg_event) :
  duplicates_of (hashesToPaths (agg_loop evs)) =
  fileByteMapDups (findDuplicates (ok_pairs (results_of evs))).
Proof.
  rewrite hashesToPaths_agg_loop. unfold hashes_to_paths, findDuplicates.
  apply promotes_duplicates. apply promotes_fold. apply promotes_init.
Qed.

(** Claim C2: when [DigestAll] returns a duplicate map with a nil error,
    every group in it has at least two paths, and a digest seen for
    exactly one path has no entry in it. *)
Theorem digestAll_groups_have_two_paths (ctxErr : option go_error) (a : agg)
    (dups : gmap string (list string)) (dirs : list string) :
  digestAll_return ctxErr a = (Some dups, dirs, None) ->
  (forall k ps, dups !! k = Some ps -> (2 <= length ps)%nat) /\
  (forall k p, hashesToPaths a !! k = Some [p] -> dups !! k = None).
Proof.
  unfold digestAll_return. intros Hret.
  destruct ctxErr; [discriminate|]. destruct (finalWalkErr a); [discriminate|].
  inversion Hret; subst dups dirs. unfold duplicates_of. split.
  - intros k ps Hk. apply map_lookup_filter_Some in Hk as [_ Hlen]. simpl in Hlen. lia.
  - intros k p Hk. apply map_lookup_filter_None. right. intros x Hx.
    rewrite Hk in Hx. inversion Hx. simpl. lia.
Qed.

Lemma digestAll_groups_have_two_paths_witness :
  digestAll_return None (agg_loop eventsA) =
    (Some (duplicates_of (hashesToPaths (agg_loop eventsA))), ["r/sub"], None) /\
  (forall k ps, duplicates_of (hashesToPaths (agg_loop eventsA)) !! k = Some ps ->
     (2 <= length ps)%nat).
Proof.
  split; [reflexivity|].
  apply (digestAll_groups_have_two_paths None (agg_loop eventsA) _ ["r/sub"]).
  reflexivity.
Defined.

(* ------------------------------------------------------------------ *)
(** ** The pipeline *)

Ltac exec_cases H :=
  simpl in H; unfold walker_local, digester_local, recv_result in H;
  repeat (case_match; simplify_eq/=; try discriminate).

Lemma run_reachable (root : string) (hasher : HashFunc) (chs : list choice) (s s' : state) :
  run root hasher chs s = Some s' -> reachable root hasher s s'.
Proof.
  revert s. induction chs as [|ch chs IH]; intros s H; simpl in H.
  - inversion H. apply rtc_refl.
  - destruct (exec root hasher ch s) as [s1|] eqn:He; [|discriminate].
    eapply rtc_l; [exists ch; exact He|]. apply IH. exact H.
Qed.

Lemma regs_nonneg (es : list entry) : 0 <= regs es.
Proof. induction es as [|[] es IH]; simpl; lia. Qed.

Lemma busy_nonneg (d : digester_pc) : 0 <= busy d <= 1.
Proof. destruct d; simpl; lia. Qed.

Lemma zsum_nonneg (ds : list digester_pc) : 0 <= zsum busy ds.
Proof. induction ds as [|d ds IH]; simpl; [lia|]. pose proof (busy_nonneg d). lia. Qed.

Lemma zsum_insert (f : digester_pc -> Z) (ds : list digester_pc) (i : nat) (x y : digester_pc) :
  ds !! i = Some x -> zsum f (<[i := y]> ds) = zsum f ds - f x + f y.
Proof.
  revert i. induction ds as [|d ds IH]; intros [|i] H; simpl in *; try discriminate.
  - inversion H; subst. lia.
  - rewrite (IH i H). lia.
Qed.

Lemma zsum_repeat_range (n : nat) : zsum busy (repeat DRange n) = 0.
Proof. induction n as [|n IH]; simpl; lia. Qed.

Lemma add1_small (x : Z) : 0 <= x -> x + 1 < 2 ^ 64 -> add1_u64 x = x + 1.
Proof. intros. unfold add1_u64. apply Z.mod_small. lia. Qed.

Lemma regs_left_nonneg (w : walker_pc) : 0 <= regs_left w.
Proof. destruct w; simpl; try lia; apply regs_nonneg. Qed.

Lemma walker_holds_bounds (w : walker_pc) : 0 <= walker_holds w <= 1.
Proof. destruct w; simpl; lia. Qed.

Lemma zsum_busy_lookup (ds : list digester_pc) (i : nat) (x : digester_pc) :
  ds !! i = Some x -> busy x <= zsum busy ds.
Proof.
  revert i. induction ds as [|d ds IH]; intros [|i] H; simpl in *; try discriminate.
  - inversion H; subst. pose proof (zsum_nonneg ds). lia.
  - pose proof (IH i H). pose proof (busy_nonneg d). lia.
Qed.

Ltac counters_arith :=
  unfold counters_ok, inflight in *;
  repeat match goal with
  | Hw : walker ?s = ?w, Hc : _ /\ _ |- _ => progress rewrite Hw in Hc
  end;
  repeat match goal with
  | _ : context [regs_left ?w] |- _ =>
      lazymatch goal with
      | _ : 0 <= regs_left w |- _ => fail
      | _ => pose proof (regs_left_nonneg w)
      end
  | |- context [regs_left ?w] =>
      lazymatch goal with
      | _ : 0 <= regs_left w |- _ => fail
      | _ => pose proof (regs_left_nonneg w)
      end
  | _ : context [walker_holds ?w] |- _ =>
      lazymatch goal with
      | _ : 0 <= walker_holds w <= 1 |- _ => fail
      | _ => pose proof (walker_holds_bounds w)
      end
  | |- context [walker_holds ?w] =>
      lazymatch goal with
      | _ : 0 <= walker_holds w <= 1 |- _ => fail
      | _ => pose proof (walker_holds_bounds w)
      end
  | H : digesters ?s !! ?i = Some ?x |- _ =>
      lazymatch goal with
      | _ : busy x <= zsum busy (digesters s) |- _ => fail
      | _ => pose proof (zsum_busy_lookup (digesters s) i x H)
      end
  end;
  simpl in *;
  repeat match goal with
  | _ : context [regs ?es] |- _ =>
      lazymatch goal with
      | _ : 0 <= regs es |- _ => fail
      | _ => pose proof (regs_nonneg es)
      end
  end;
  repeat match goal with
  | H : digesters ?s !! ?i = Some ?x |- context [zsum busy (<[?i := ?y]> (digesters ?s))] =>
      let Hz := fresh "Hz" in let Hn := fresh "Hn" in
      pose proof (zsum_insert busy (digesters s) i x y H) as Hz;
      pose proof (zsum_nonneg (<[i := y]> (digesters s))) as Hn;
      simpl in Hz;
      set (zsum busy (<[i := y]> (digesters s))) in *
  end;
  repeat match goal with
  | |- context [regs ?es] => lazymatch goal with
                             | _ : 0 <= regs es |- _ => fail
                             | _ => pose proof (regs_nonneg es)
                             end
  end;
  repeat match goal with
  | |- context [add1_u64 ?x] => rewrite (add1_small x) by lia
  end;
  lia.

Lemma counters_ok_init (ctx0 : option go_error) (entries : list entry) (n : nat) :
  regs entries < 2 ^ 64 -> counters_ok (regs entries) (init ctx0 entries n).
Proof.
  intros Hb. unfold counters_ok, inflight, init. simpl.
  rewrite zsum_repeat_range. pose proof (regs_nonneg entries). lia.
Qed.

Lemma counters_step (root : string) (hasher : HashFunc) (total : Z) (s s' : state) :
  counters_ok total s -> step root hasher s s' ->
  counters_ok total s' /\ filesFound s <= filesFound s' /\ filesHashed s <= filesHashed s' /\
  (filesFound s' <> filesFound s ->
     filesFound s' = filesFound s + 1 /\
     exists p es, walker s = WCallback (EntryReg p :: es) /\ walker s' = WSendFile p es) /\
  (filesHashed s' <> filesHashed s ->
     filesHashed s' = filesHashed s + 1 /\
     exists i r, digesters s !! i = Some (DSelect r) /\ rerr r = None).
Proof.
  intros Hok [ch Hex]. pose proof (zsum_nonneg (digesters s)).
  pose proof (regs_nonneg []).
  destruct ch; exec_cases Hex.
  all: split; [counters_arith|].
  all: split; [counters_arith|].
  all: split; [counters_arith|].
  all: split; [simpl; intros Hne; first [congruence | split; [counters_arith | eauto]]|].
  all: simpl; intros Hne; first [congruence | split; [counters_arith | eauto]].
Qed.

Lemma counters_reachable (root : string) (hasher : HashFunc) (total : Z) (s s' : state) :
  counters_ok total s -> reachable root hasher s s' -> counters_ok total s'.
Proof.
  intros Hok Hr. induction Hr as [s|s s1 s' Hs Hr IH]; [exact Hok|].
  apply IH. apply (counters_step root hasher total s s1 Hok Hs).
Qed.

Lemma quiet_step (root : string) (hasher : HashFunc) (s s' : state) :
  quiet s -> step root hasher s s' ->
  quiet s' /\ filesFound s' = filesFound s /\ filesHashed s' = filesHashed s.
Proof.
  intros Hq [ch Hex]. unfold quiet in *. pose proof (zsum_nonneg (digesters s)).
  destruct ch; exec_cases Hex.
  all: repeat match goal with
  | Hw : walker ?s = ?w, Hc : _ /\ _ |- _ => progress rewrite Hw in Hc
  end.
  all: repeat match goal with
  | H : digesters ?s !! ?i = Some ?x |- context [zsum busy (<[?i := ?y]> (digesters ?s))] =>
      let Hz := fresh "Hz" in
      pose proof (zsum_insert busy (digesters s) i x y H) as Hz;
      simpl in Hz;
      set (zsum busy (<[i := y]> (digesters s))) in *
  | H : digesters ?s !! ?i = Some ?x |- _ =>
      lazymatch goal with
      | _ : busy x <= zsum busy (digesters s) |- _ => fail
      | _ => pose proof (zsum_busy_lookup (digesters s) i x H)
      end
  end.
  all: simpl in *.
  all: repeat match goal with
  | _ : context [regs ?es] |- _ =>
      lazymatch goal with
      | _ : 0 <= regs es |- _ => fail
      | _ => pose proof (regs_nonneg es)
      end
  end.
  all: try lia.
Qed.

Lemma quiet_reachable (root : string) (hasher : HashFunc) (s s' : state) :
  quiet s -> reachable root hasher s s' ->
  filesFound s' = filesFound s /\ filesHashed s' = filesHashed s.
Proof.
  intros Hq Hr. induction Hr as [s|s s1 s' Hs Hr IH]; [split; reflexivity|].
  destruct (quiet_step root hasher s s1 Hq Hs) as [Hq1 [Hf Hh]].
  destruct (IH Hq1) as [Hf' Hh']. split; congruence.
Qed.

(** Claim C4: on every state reachable from the start of [DigestAll]
    (walker, [numWorkers] digesters, closer and aggregator interleaved in
    any order), [0 <= filesHashed <= filesFound], and every path held by
    the walker or a digester is already counted in [filesFound]; along
    every step both counters are monotone, [filesFound] grows only by one,
    when the walker classifies a regular entry (before the path is handed
    to a digester), and [filesHashed] grows only by one, when the
    aggregator receives a result without error; once no path is left to
    classify or in flight, neither counter changes again, so a gap left
    by failed hashes is permanent. *)
Theorem digestAll_counters_invariant (root : string) (hasher : HashFunc)
    (ctx0 : option go_error) (entries : list entry) (numWorkers : nat) (s : state)
    (Hbound : regs entries < 2 ^ 64)
    (Hreach : reachable root hasher (init ctx0 entries numWorkers) s) :
  0 <= filesHashed s <= filesFound s /\
  filesHashed s + inflight s <= filesFound s /\
  (forall s', step root hasher s s' ->
     filesFound s <= filesFound s' /\ filesHashed s <= filesHashed s' /\
     (filesFound s' <> filesFound s ->
        filesFound s' = filesFound s + 1 /\
        exists p es, walker s = WCallback (EntryReg p :: es) /\ walker s' = WSendFile p es) /\
     (filesHashed s' <> filesHashed s ->
        filesHashed s' = filesHashed s + 1 /\
        exists i r, digesters s !! i = Some (DSelect r) /\ rerr r = None)) /\
  (quiet s -> forall s', reachable root hasher s s' ->
     filesFound s' = filesFound s /\ filesHashed s' = filesHashed s).
Proof.
  pose proof (counters_reachable root hasher (regs entries) _ s
                (counters_ok_init ctx0 entries numWorkers Hbound) Hreach) as Hok.
  split; [|split; [|split]].
  - pose proof Hok as Hok'. unfold counters_ok, inflight in Hok'.
    pose proof (walker_holds_bounds (walker s)). pose proof (zsum_nonneg (digesters s)). lia.
  - apply Hok.
  - intros s' Hs. destruct (counters_step root hasher _ s s' Hok Hs) as [_ H]. exact H.
  - intros Hq s' Hr. exact (quiet_reachable root hasher s s' Hq Hr).
Qed.

Lemma digestAll_counters_invariant_witness :
  filesFound stateD = 3 /\ filesHashed stateD = 2 /\ quiet stateD /\
  (forall s', reachable "r" hasherD stateD s' -> filesFound s' = 3 /\ filesHashed s' = 2).
Proof.
  assert (Hq : quiet stateD) by (vm_compute; repeat split).
  destruct (digestAll_counters_invariant "r" hasherD None entriesD 1 stateD)
    as [_ [_ [_ Hfix]]].
  - vm_compute. reflexivity.
  - apply (run_reachable "r" hasherD scheduleD). vm_compute. reflexivity.
  - split; [vm_compute; reflexivity|]. split; [vm_compute; reflexivity|].
    split; [exact Hq|]. intros s' Hr. exact (Hfix Hq s' Hr).
Defined.

Lemma blocked_step (root : string) (hasher : HashFunc) (s s' : state) :
  blocked s -> step root hasher s s' -> blocked s'.
Proof.
  intros [H1 [H2 H3]] [ch Hex]. destruct ch; exec_cases Hex.
  all: unfold blocked, agg_exit in *; simpl in *.
  all: rewrite ?H1, ?H2, ?H3, ?andb_false_r in *; simpl in *.
  all: repeat split; try congruence.
Qed.

Lemma blocked_reachable (root : string) (hasher : HashFunc) (s s' : state) :
  blocked s -> reachable root hasher s s' -> blocked s'.
Proof.
  intros Hb Hr. induction Hr as [s|s s1 s' Hs Hr IH]; [exact Hb|].
  apply IH. exact (blocked_step root hasher s s1 Hb Hs).
Qed.

Lemma never_returns (root : string) (hasher : HashFunc) (ctx0 : option go_error)
    (entries : list entry) (numWorkers : nat) (s : state) :
  reachable root hasher (init ctx0 entries numWorkers) s -> blocked s.
Proof.
  intros Hr. apply (blocked_reachable root hasher (init ctx0 entries numWorkers) s);
    [repeat split|exact Hr].
Qed.

Lemma cancelled_step (root : string) (hasher : HashFunc) (s s' : state) :
  cancelled_inv s -> step root hasher s s' -> cancelled_inv s'.
Proof.
  intros Hc [ch Hex]. unfold cancelled_inv in *.
  pose proof (zsum_nonneg (digesters s)).
  destruct ch; exec_cases Hex.
  all: repeat match goal with
  | Hw : walker ?s = ?w, Hc : _ /\ _ |- _ => progress rewrite Hw in Hc
  end.
  all: repeat match goal with
  | H : digesters ?s !! ?i = Some ?x |- context [zsum busy (<[?i := ?y]> (digesters ?s))] =>
      let Hz := fresh "Hz" in
      pose proof (zsum_insert busy (digesters s) i x y H) as Hz;
      simpl in Hz;
      set (zsum busy (<[i := y]> (digesters s))) in *
  | H : digesters ?s !! ?i = Some ?x |- _ =>
      lazymatch goal with
      | _ : busy x <= zsum busy (digesters s) |- _ => fail
      | _ => pose proof (zsum_busy_lookup (digesters s) i x H)
      end
  end.
  all: simpl in *.
  all: intuition (try congruence; try lia).
Qed.

Lemma cancelled_reachable (root : string) (hasher : HashFunc) (s s' : state) :
  cancelled_inv s -> reachable root hasher s s' -> cancelled_inv s'.
Proof.
  intros Hc Hr. induction Hr as [s|s s1 s' Hs Hr IH]; [exact Hc|].
  apply IH. exact (cancelled_step root hasher s s1 Hc Hs).
Qed.

Lemma exec_stateA_cancelled_stuck (ch : choice) : exec "r" hasherA ch stateA_cancelled = None.
Proof.
  destruct ch as [d| |i|i| |i| | | | |]; try (vm_compute; reflexivity).
  all: destruct i as [|[|i]]; vm_compute; reflexivity.
Qed.

(** Claim C7 (code bug): started with a context that is already cancelled,
    [DigestAll] never returns. The walker's callback does see the
    cancellation first and stops (no file is counted, no directory or
    digest is recorded), and the return code would report the context's
    error; but in every interleaving the aggregator stays in its loop,
    because [errc] is never closed and never set to nil, so the exit test
    of line 162 cannot hold. *)
Theorem digestAll_cancelled_never_returns (root : string) (hasher : HashFunc)
    (e : go_error) (entries : list entry) (numWorkers : nat) (s : state)
    (Hreach : reachable root hasher (init (Some e) entries numWorkers) s) :
  apc s = ALoop /\ a_errc (aggr s) = true /\ errc_closed s = false /\
  filesFound s = 0 /\ filesHashed s = 0 /\
  discoveredDirs (aggr s) = [] /\ hashesToPaths (aggr s) = ∅ /\
  (forall a, digestAll_return (Some e) a = (None, discoveredDirs a, Some e)).
Proof.
  destruct (never_returns root hasher (Some e) entries numWorkers s Hreach) as [Hc [Ha Hp]].
  assert (H0 : cancelled_inv (init (Some e) entries numWorkers)).
  { unfold cancelled_inv, init. simpl. rewrite zsum_repeat_range.
    repeat split; congruence. }
  destruct (cancelled_reachable root hasher _ s H0 Hreach) as (_ & Hf & Hh & _ & _ & Hd & Ht).
  repeat split; first [assumption | intros; reflexivity].
Qed.

Lemma digestAll_cancelled_never_returns_witness :
  reachable "r" hasherA (init (Some ErrCanceled) entriesA 2) stateA_cancelled /\
  (forall ch, exec "r" hasherA ch stateA_cancelled = None) /\
  apc stateA_cancelled = ALoop /\ filesFound stateA_cancelled = 0.
Proof.
  assert (Hr : reachable "r" hasherA (init (Some ErrCanceled) entriesA 2) stateA_cancelled).
  { apply (run_reachable "r" hasherA scheduleA_cancelled). vm_compute. reflexivity. }
  destruct (digestAll_cancelled_never_returns "r" hasherA ErrCanceled entriesA 2
              stateA_cancelled Hr) as (Hp & _ & _ & Hf & _).
  split; [exact Hr|]. split; [exact exec_stateA_cancelled_stuck|]. split; assumption.
Defined.

Lemma stateA_only_cancel (ch : choice) :
  exec "r" hasherA ch stateA <> None -> exists d, ch = ChCancel d.
Proof.
  intros H. destruct ch as [d| |i|i| |i| | | | |]; [eauto|exfalso; apply H..].
  all: try (vm_compute; reflexivity).
  all: destruct i as [|i]; vm_compute; reflexivity.
Qed.


Lemma exec_stateA_late_cancel_stuck (ch : choice) : exec "r" hasherA ch stateA_late_cancel = None.
Proof.
  destruct ch as [d| |i|i| |i| | | | |]; try (vm_compute; reflexivity).
  all: destruct i as [|i]; vm_compute; reflexivity.
Qed.

(** Claim C1 (code bug): no run of [DigestAll] completes, so no duplicate
    table is ever returned, with a nil error or otherwise, and identical
    files are never handed back grouped. Whatever the tree, the hash
    function, the worker count and the context, in every reachable state
    the aggregator is still in its loop and the exit test of line 162
    fails: [errc] is still non-nil in the aggregator and is never closed. *)
Theorem digestAll_never_returns_table (root : string) (hasher : HashFunc)
    (ctx0 : option go_error) (entries : list entry) (numWorkers : nat) (s : state)
    (Hreach : reachable root hasher (init ctx0 entries numWorkers) s) :
  (forall o, apc s <> AReturned o) /\ exec root hasher ChExit s = None /\
  a_errc (aggr s) = true /\ errc_closed s = false.
Proof.
  destruct (never_returns root hasher ctx0 entries numWorkers s Hreach) as [Hc [Ha Hp]].
  split; [intros o; rewrite Hp; discriminate|].
  split; [|split; assumption].
  simpl. rewrite Hp. unfold agg_exit. rewrite Ha, andb_false_r. reflexivity.
Qed.

Lemma digestAll_never_returns_table_witness :
  reachable "r" hasherA (init None entriesA 1) stateA /\
  hashesToPaths (aggr stateA) !! encodeToString [Byte.x01] = Some ["r/a"; "r/sub/c"] /\
  quiet stateA /\ exec "r" hasherA ChExit stateA = None /\
  (forall ch, exec "r" hasherA ch stateA <> None -> exists d, ch = ChCancel d).
Proof.
  assert (Hr : reachable "r" hasherA (init None entriesA 1) stateA).
  { apply (run_reachable "r" hasherA scheduleA_full). vm_compute. reflexivity. }
  destruct (digestAll_never_returns_table "r" hasherA None entriesA 1 stateA Hr) as (_ & He & _).
  split; [exact Hr|]. split; [vm_compute; reflexivity|].
  split; [vm_compute; repeat split|]. split; [exact He|exact stateA_only_cancel].
Defined.

(** Claim C6 (code bug): once the context is cancelled, or the walk has
    reported an error, [DigestAll] still never returns, so the partial
    tables it has built (the directories and the digest table) are never
    handed back with the error: from such a state, every later state keeps
    the aggregator in its loop with the exit test failing. *)
Theorem digestAll_error_never_returns_partial (root : string) (hasher : HashFunc)
    (ctx0 : option go_error) (entries : list entry) (numWorkers : nat) (s s' : state)
    (e : go_error)
    (Hreach : reachable root hasher (init ctx0 entries numWorkers) s)
    (Herr : ctx_err s = Some e \/ finalWalkErr (aggr s) = Some e)
    (Hnext : reachable root hasher s s') :
  apc s' = ALoop /\ exec root hasher ChExit s' = None.
Proof.
  assert (Hr : reachable root hasher (init ctx0 entries numWorkers) s') by (unfold reachable in *; etrans; eassumption).
  destruct (never_returns root hasher ctx0 entries numWorkers s' Hr) as [Hc [Ha Hp]].
  split; [exact Hp|]. simpl. rewrite Hp. unfold agg_exit. rewrite Ha, andb_false_r. reflexivity.
Qed.

Lemma digestAll_error_never_returns_partial_witness :
  reachable "r" hasherA (init None entriesA 1) stateA_late_cancel /\
  ctx_err stateA_late_cancel = Some ErrCanceled /\
  discoveredDirs (aggr stateA_late_cancel) = ["r/sub"] /\
  hashesToPaths (aggr stateA_late_cancel) !! encodeToString [Byte.x01] = Some ["r/a"; "r/sub/c"] /\
  apc stateA_late_cancel = ALoop /\
  (forall ch, exec "r" hasherA ch stateA_late_cancel = None).
Proof.
  assert (Hr : reachable "r" hasherA (init None entriesA 1) stateA_late_cancel).
  { apply (run_reachable "r" hasherA scheduleA_late_cancel). vm_compute. reflexivity. }
  assert (He : ctx_err stateA_late_cancel = Some ErrCanceled) by (vm_compute; reflexivity).
  destruct (digestAll_error_never_returns_partial "r" hasherA None entriesA 1
              stateA_late_cancel stateA_late_cancel ErrCanceled Hr (or_introl He) (rtc_refl _ _))
    as [Hp _].
  split; [exact Hr|]. split; [exact He|]. split; [vm_compute; reflexivity|].
  split; [vm_compute; reflexivity|]. split; [exact Hp|exact exec_stateA_late_cancel_stuck].
Defined.

(** Claim C5 (code bug): [DigestAll] has no guard on [numWorkers] (nor on
    [hasher]): with [numWorkers = 0] it starts the walk (the walker counts
    the first regular file) and then never returns anything, in particular
    no configuration error; every state reachable from the start keeps the
    aggregator in its loop and has no digester. *)
Theorem digestAll_zero_workers_no_config_error (root : string) (hasher : HashFunc)
    (ctx0 : option go_error) (entries : list entry) (s : state)
    (Hreach : reachable root hasher (init ctx0 entries 0) s) :
  apc s = ALoop /\ digesters s = [].
Proof.
  destruct (never_returns root hasher ctx0 entries 0 s Hreach) as [_ [_ Hp]].
  split; [exact Hp|].
  assert (Hd : forall s1 s2, step root hasher s1 s2 -> digesters s1 = [] -> digesters s2 = []).
  { intros s1 s2 [ch Hex] H1. destruct ch; exec_cases Hex; rewrite ?H1 in *; simpl in *;
      try discriminate; try assumption; reflexivity. }
  clear -Hreach Hd. remember (init ctx0 entries 0) as s0 eqn:E.
  assert (H0 : digesters s0 = []) by (subst; reflexivity). clear E.
  induction Hreach as [s|s s1 s' Hs Hr IH]; [exact H0|].
  apply IH. exact (Hd s s1 Hs H0).
Qed.

Lemma digestAll_zero_workers_no_config_error_witness :
  exists s, run "r" hasherA [ChWalker; ChWalker] (init None entriesZ 0) = Some s /\
    filesFound s = 1 /\ walker s = WSendFile "r/a" [] /\ apc s = ALoop /\ digesters s = [].
Proof.
  eexists. split; [vm_compute; reflexivity|].
  split; [reflexivity|]. split; [reflexivity|].
  apply (digestAll_zero_workers_no_config_error "r" hasherA None entriesZ).
  apply (run_reachable "r" hasherA [ChWalker; ChWalker]). vm_compute. reflexivity.
Defined.




(** ** Consolidation *)

Lemma link_candidate_frame (o : string) (st : hl_state) (d q : string) :
  q <> d ->
  fs_inode (hl_fs (link_candidate o st d)) !! q = fs_inode (hl_fs st) !! q /\
  fs_pinned (hl_fs (link_candidate o st d)) = fs_pinned (hl_fs st).
Proof.
  intros Hq. unfold link_candidate, areFilesHardLinked, os_Stat, os_Remove, os_Link.
  repeat case_match; simplify_eq/=; try (split; reflexivity).
  all: split; [|reflexivity].
  all: rewrite ?lookup_insert_ne, ?lookup_delete_ne by congruence; reflexivity.
Qed.

Lemma fold_frame (o : string) (ds : list string) (st : hl_state) (q : string) :
  q ∉ ds ->
  fs_inode (hl_fs (foldl (link_candidate o) st ds)) !! q = fs_inode (hl_fs st) !! q /\
  fs_pinned (hl_fs (foldl (link_candidate o) st ds)) = fs_pinned (hl_fs st).
Proof.
  revert st. induction ds as [|d ds IH]; intros st Hq; simpl; [split; reflexivity|].
  apply not_elem_of_cons in Hq as [Hqd Hq].
  destruct (IH (link_candidate o st d) Hq) as [H1 H2].
  destruct (link_candidate_frame o st d q Hqd) as [H3 H4]. split; congruence.
Qed.

Lemma cands_cons (k : string) (paths : list string) (gs : list (string * list string)) :
  cands ((k, paths) :: gs) = tail paths ++ cands gs.
Proof. reflexivity. Qed.

Lemma cands_sub (gs : list (string * list string)) (q : string) :
  q ∈ cands gs -> q ∈ concat (map snd gs).
Proof.
  induction gs as [|[k paths] gs IH]; simpl; [intros H; apply not_elem_of_nil in H; contradiction|].
  rewrite cands_cons. rewrite !elem_of_app. intros [H|H]; [left|right; auto].
  destruct paths as [|p ps]; simpl in *; [apply not_elem_of_nil in H; contradiction|].
  apply elem_of_cons. right. exact H.
Qed.

Lemma hardlink_frame (gs : list (string * list string)) (st st' : hl_state) (q : string) :
  hardlinkDuplicates gs st = Some st' -> q ∉ cands gs ->
  fs_inode (hl_fs st') !! q = fs_inode (hl_fs st) !! q /\ fs_pinned (hl_fs st') = fs_pinned (hl_fs st).
Proof.
  revert st. induction gs as [|[k paths] gs IH]; intros st H Hq; simpl in H.
  - injection H as <-. split; reflexivity.
  - rewrite cands_cons in Hq. apply not_elem_of_app in Hq as [Hq1 Hq2].
    destruct paths as [|o ds]; simpl in H; [discriminate|].
    destruct (IH _ H Hq2) as [H1 H2]. destruct (fold_frame o ds st q Hq1) as [H3 H4].
    split; congruence.
Qed.

Lemma link_candidate_ops (o : string) (st : hl_state) (d : string) :
  exists new, hl_ops (link_candidate o st d) = hl_ops st ++ new /\
    forall op, op ∈ new -> op_target op = d.
Proof.
  unfold link_candidate.
  repeat case_match; simplify_eq/=;
    try (exists []; split; [rewrite app_nil_r; reflexivity|intros op Hop; apply not_elem_of_nil in Hop; contradiction]).
  - eexists. split; [reflexivity|]. intros op Hop. apply list_elem_of_singleton in Hop. subst. reflexivity.
  - eexists. split; [reflexivity|]. intros op Hop.
    apply elem_of_cons in Hop as [->|Hop]; [reflexivity|].
    apply list_elem_of_singleton in Hop. subst. reflexivity.
Qed.

Lemma fold_ops (o : string) (ds : list string) (st : hl_state) :
  exists new, hl_ops (foldl (link_candidate o) st ds) = hl_ops st ++ new /\
    forall op, op ∈ new -> op_target op ∈ ds.
Proof.
  revert st. induction ds as [|d ds IH]; intros st; simpl.
  - exists []. split; [rewrite app_nil_r; reflexivity|].
    intros op Hop. apply not_elem_of_nil in Hop. contradiction.
  - destruct (link_candidate_ops o st d) as [n1 [E1 H1]].
    destruct (IH (link_candidate o st d)) as [n2 [E2 H2]].
    exists (n1 ++ n2). split; [rewrite E2, E1, app_assoc; reflexivity|].
    intros op Hop. apply elem_of_app in Hop as [Hop|Hop].
    + rewrite (H1 op Hop). apply elem_of_cons. left. reflexivity.
    + apply elem_of_cons. right. exact (H2 op Hop).
Qed.

Lemma hardlink_ops (gs : list (string * list string)) (st st' : hl_state) :
  hardlinkDuplicates gs st = Some st' ->
  exists new, hl_ops st' = hl_ops st ++ new /\
    forall op, op ∈ new -> exists k o ds, (k, o :: ds) ∈ gs /\ op_target op ∈ ds.
Proof.
  revert st. induction gs as [|[k paths] gs IH]; intros st H; simpl in H.
  - injection H as <-. exists []. split; [rewrite app_nil_r; reflexivity|].
    intros op Hop. apply not_elem_of_nil in Hop. contradiction.
  - destruct paths as [|o ds]; simpl in H; [discriminate|].
    destruct (fold_ops o ds st) as [n1 [E1 H1]].
    destruct (IH _ H) as [n2 [E2 H2]].
    exists (n1 ++ n2). split; [rewrite E2, E1, app_assoc; reflexivity|].
    intros op Hop. apply elem_of_app in Hop as [Hop|Hop].
    + exists k, o, ds. split; [apply elem_of_cons; left; reflexivity|exact (H1 op Hop)].
    + destruct (H2 op Hop) as (k' & o' & ds' & Hg & Ht).
      exists k', o', ds'. split; [apply elem_of_cons; right; exact Hg|exact Ht].
Qed.

Lemma head_not_cand (gs : list (string * list string)) (k o : string) (ds : list string) :
  NoDup (concat (map snd gs)) -> (k, o :: ds) ∈ gs -> o ∉ cands gs.
Proof.
  induction gs as [|[k0 paths] gs IH]; intros Hnd Hg; [apply not_elem_of_nil in Hg; contradiction|].
  simpl in Hnd. rewrite cands_cons. apply NoDup_app in Hnd as (Hnd1 & Hdis & Hnd2).
  apply elem_of_cons in Hg as [Hg|Hg].
  - injection Hg as E1 E2. subst. simpl. apply NoDup_cons in Hnd1 as [Ho _].
    apply not_elem_of_app. split; [exact Ho|].
    intros Hc. apply (Hdis o); [apply elem_of_cons; left; reflexivity|apply cands_sub; exact Hc].
  - apply not_elem_of_app. split; [|exact (IH Hnd2 Hg)].
    intros Hc. apply (Hdis o).
    + destruct paths as [|p ps]; simpl in Hc; [apply not_elem_of_nil in Hc; contradiction|].
      apply elem_of_cons. right. exact Hc.
    + apply list_elem_of_In, in_concat. exists (o :: ds). split.
      * apply in_map_iff. exists (k, o :: ds). split; [reflexivity|]. apply list_elem_of_In. exact Hg.
      * left. reflexivity.
Qed.

Lemma settled_noop (o : string) (st : hl_state) (d : string) :
  settled (hl_fs st) o d -> link_candidate o st d = st.
Proof.
  intros Hs. unfold link_candidate, areFilesHardLinked, os_Stat, os_Remove.
  destruct Hs as [Ho|[Hd|[Hp|(ino & Ho & Hd)]]].
  - rewrite Ho. reflexivity.
  - destruct (fs_inode (hl_fs st) !! o); [rewrite Hd|]; reflexivity.
  - destruct (fs_inode (hl_fs st) !! o); [|reflexivity].
    destruct (fs_inode (hl_fs st) !! d); [|reflexivity].
    destruct (N.eqb _ _); [reflexivity|].
    rewrite decide_True by exact Hp. reflexivity.
  - rewrite Ho, Hd, N.eqb_refl. reflexivity.
Qed.

Lemma settled_frame (fs fs' : fsys) (o d : string) :
  fs_inode fs' !! o = fs_inode fs !! o -> fs_inode fs' !! d = fs_inode fs !! d ->
  fs_pinned fs' = fs_pinned fs -> settled fs o d -> settled fs' o d.
Proof.
  intros Ho Hd Hp Hs. unfold settled in *. rewrite Ho, Hd, Hp. exact Hs.
Qed.

Lemma link_candidate_settles (o : string) (st : hl_state) (d : string) :
  o <> d -> settled (hl_fs (link_candidate o st d)) o d.
Proof.
  intros Hod. unfold settled, link_candidate, areFilesHardLinked, os_Stat, os_Remove, os_Link.
  destruct (fs_inode (hl_fs st) !! o) as [io|] eqn:Eo; [|simpl; rewrite Eo; auto].
  destruct (fs_inode (hl_fs st) !! d) as [id|] eqn:Ed; [|simpl; rewrite Ed; auto].
  destruct (N.eqb io id) eqn:Eq.
  - apply N.eqb_eq in Eq. subst. simpl. right; right; right. eauto.
  - case_decide as Hp; [simpl; auto|]. simpl.
    rewrite lookup_delete_ne by congruence. rewrite Eo, lookup_delete_eq.
    destruct (N.eqb (fs_dev (hl_fs st) o) (fs_dev (hl_fs st) d)); simpl.
    + rewrite lookup_insert_ne by congruence. rewrite lookup_delete_ne by congruence.
      rewrite lookup_insert_eq, Eo. eauto 10.
    + rewrite lookup_delete_eq. auto.
Qed.

Lemma group_settles (o : string) (ds : list string) (st : hl_state) :
  NoDup (o :: ds) -> forall d, d ∈ ds -> settled (hl_fs (foldl (link_candidate o) st ds)) o d.
Proof.
  revert st. induction ds as [|d0 ds IH]; intros st Hnd d Hd;
    [apply not_elem_of_nil in Hd; contradiction|].
  simpl. apply NoDup_cons in Hnd as [Ho Hnd]. apply NoDup_cons in Hnd as [Hd0 Hnd].
  apply not_elem_of_cons in Ho as [Hod0 Ho].
  apply elem_of_cons in Hd as [->|Hd].
  - destruct (fold_frame o ds (link_candidate o st d0) o Ho) as [H1 H2].
    destruct (fold_frame o ds (link_candidate o st d0) d0 Hd0) as [H3 _].
    apply (settled_frame _ _ o d0 H1 H3 H2). apply link_candidate_settles. exact Hod0.
  - apply IH; [apply NoDup_cons; split; assumption|exact Hd].
Qed.

Lemma run_settles (gs : list (string * list string)) (st st' : hl_state) :
  NoDup (concat (map snd gs)) -> hardlinkDuplicates gs st = Some st' ->
  forall k o ds, (k, o :: ds) ∈ gs -> forall d, d ∈ ds -> settled (hl_fs st') o d.
Proof.
  revert st. induction gs as [|[k0 paths] gs IH]; intros st Hnd H k o ds Hg d Hd;
    [apply not_elem_of_nil in Hg; contradiction|].
  simpl in H, Hnd. apply NoDup_app in Hnd as (Hnd1 & Hdis & Hnd2).
  destruct paths as [|o0 ds0]; simpl in H; [discriminate|].
  apply elem_of_cons in Hg as [Hg|Hg].
  - injection Hg as E1 E2 E3. subst.
    assert (Hout : forall q, q ∈ o0 :: ds0 -> q ∉ cands gs).
    { intros q Hq Hc. exact (Hdis q Hq (cands_sub gs q Hc)). }
    destruct (hardlink_frame gs _ st' o0 H (Hout o0 ltac:(apply elem_of_cons; left; reflexivity)))
      as [H1 H2].
    destruct (hardlink_frame gs _ st' d H (Hout d ltac:(apply elem_of_cons; right; exact Hd)))
      as [H3 _].
    apply (settled_frame _ _ o0 d H1 H3 H2). apply group_settles; assumption.
  - exact (IH _ Hnd2 H k o ds Hg d Hd).
Qed.

Lemma fold_settled_noop (o : string) (ds : list string) (st : hl_state) :
  (forall d, d ∈ ds -> settled (hl_fs st) o d) -> foldl (link_candidate o) st ds = st.
Proof.
  induction ds as [|d ds IH]; intros Hs; simpl; [reflexivity|].
  rewrite settled_noop by (apply Hs; apply elem_of_cons; left; reflexivity).
  apply IH. intros d' Hd'. apply Hs. apply elem_of_cons. right. exact Hd'.
Qed.

Lemma settled_run_noop (gs : list (string * list string)) (st st' : hl_state) :
  (forall k o ds, (k, o :: ds) ∈ gs -> forall d, d ∈ ds -> settled (hl_fs st) o d) ->
  hardlinkDuplicates gs st = Some st' -> st' = st.
Proof.
  induction gs as [|[k paths] gs IH]; intros Hs H; simpl in H; [injection H as <-; reflexivity|].
  destruct paths as [|o ds]; simpl in H; [discriminate|].
  rewrite fold_settled_noop in H.
  - apply IH; [|exact H]. intros k' o' ds' Hg. apply (Hs k' o' ds'). apply elem_of_cons. right. exact Hg.
  - apply (Hs k o ds). apply elem_of_cons. left. reflexivity.
Qed.

(** Claim C9 (amended): for every duplicate table whose groups hold
    pairwise distinct paths, and any two orders in which [range] may
    visit it, a second run of [hardlinkDuplicates] on the tree left by a
    first run removes nothing, links nothing and leaves
    [linksCreatedCount] as the first run left it. After the first run
    every (original, candidate) pair is settled: one of them is missing
    (a candidate removed and not relinked, e.g. across devices, is gone),
    the candidate's removal is refused, or both name the same object. *)
Theorem hardlink_second_run_noop (t : gmap string (list string))
    (ord1 ord2 : list (string * list string)) (st0 st1 st2 : hl_state)
    (Hnd : NoDup (concat (map snd (map_to_list t))))
    (Hp1 : ord1 ≡ₚ map_to_list t) (Hp2 : ord2 ≡ₚ map_to_list t)
    (Hrun1 : hardlinkDuplicates ord1 st0 = Some st1)
    (Hrun2 : hardlinkDuplicates ord2 st1 = Some st2) :
  linksCreatedCount st2 = linksCreatedCount st1 /\ hl_fs st2 = hl_fs st1 /\
  hl_ops st2 = hl_ops st1 /\
  (forall k o ds, (k, o :: ds) ∈ ord1 -> forall d, d ∈ ds -> settled (hl_fs st1) o d).
Proof.
  assert (Hnd1 : NoDup (concat (map snd ord1))).
  { revert Hnd. apply NoDup_Permutation_proper. rewrite Hp1. reflexivity. }
  pose proof (run_settles ord1 st0 st1 Hnd1 Hrun1) as Hs.
  assert (Hs2 : forall k o ds, (k, o :: ds) ∈ ord2 -> forall d, d ∈ ds -> settled (hl_fs st1) o d).
  { intros k o ds Hg. apply (Hs k o ds). rewrite Hp1, <- Hp2. exact Hg. }
  rewrite (settled_run_noop ord2 st1 st2 Hs2 Hrun2). auto.
Qed.

Lemma hardlink_second_run_noop_witness :
  hardlinkDuplicates (map_to_list tableX) hlX0 = Some hlX1 /\
  linksCreatedCount hlX1 = 1 /\
  exists st2, hardlinkDuplicates (map_to_list tableX) hlX1 = Some st2 /\
    linksCreatedCount st2 = linksCreatedCount hlX1 /\ hl_fs st2 = hl_fs hlX1.
Proof.
  assert (H1 : hardlinkDuplicates (map_to_list tableX) hlX0 = Some hlX1)
    by (vm_compute; reflexivity).
  destruct (hardlinkDuplicates (map_to_list tableX) hlX1) as [st2|] eqn:H2;
    [|vm_compute in H2; discriminate].
  split; [exact H1|]. split; [vm_compute; reflexivity|]. exists st2. split; [reflexivity|].
  destruct (hardlink_second_run_noop tableX (map_to_list tableX) (map_to_list tableX)
              hlX0 hlX1 st2) as (Hc & Hf & _).
  - vm_compute. repeat constructor; vm_compute; intros Hin; repeat (inversion Hin as [|? ? ? Hin']; subst; clear Hin; rename Hin' into Hin).
  - reflexivity.
  - reflexivity.
  - exact H1.
  - exact H2.
  - split; assumption.
Defined.

(** Claim C9 counterexample: after a first run on [tableX], the
    candidates "e" (removal refused) and "f" (removed, link across
    devices refused) are not the same object as the original "o": the
    check answers "not linked" for "e" and fails with a stat error for
    "f", which the first run deleted. *)
Lemma hardlink_candidates_not_same_object :
  hl_ops hlX1 = [OpRemove "d"; OpLink "o" "d"; OpRemove "f"] /\
  areFilesHardLinked (hl_fs hlX1) "o" "d" = (true, None) /\
  areFilesHardLinked (hl_fs hlX1) "o" "e" = (false, None) /\
  areFilesHardLinked (hl_fs hlX1) "o" "f" = (false, Some (ErrIO "stat: no such file or directory")) /\
  fs_inode (hl_fs hlX1) !! "f" = None.
Proof. vm_compute. repeat split; reflexivity. Qed.

(** Claim C10: for every duplicate table whose groups hold pairwise
    distinct paths, visited in any order, [hardlinkDuplicates] removes or
    creates only paths that are candidates (second or later element) of a
    group, never the first path of a group, whatever stat, remove or link
    fails; the object each group's first path names is the same after the
    pass as before. *)
Theorem hardlink_keeps_originals (t : gmap string (list string))
    (ord : list (string * list string)) (st0 st1 : hl_state)
    (Hnd : NoDup (concat (map snd (map_to_list t))))
    (Hp : ord ≡ₚ map_to_list t)
    (Hrun : hardlinkDuplicates ord st0 = Some st1) :
  exists new, hl_ops st1 = hl_ops st0 ++ new /\
    (forall op, op ∈ new -> exists k o ds, (k, o :: ds) ∈ ord /\ op_target op ∈ ds) /\
    (forall k o ds, (k, o :: ds) ∈ ord ->
       fs_inode (hl_fs st1) !! o = fs_inode (hl_fs st0) !! o /\
       forall op, op ∈ new -> op_target op <> o).
Proof.
  assert (Hnd1 : NoDup (concat (map snd ord))).
  { revert Hnd. apply NoDup_Permutation_proper. rewrite Hp. reflexivity. }
  destruct (hardlink_ops ord st0 st1 Hrun) as [new [E Hnew]].
  exists new. split; [exact E|]. split; [exact Hnew|].
  intros k o ds Hg. pose proof (head_not_cand ord k o ds Hnd1 Hg) as Ho.
  split; [exact (proj1 (hardlink_frame ord st0 st1 o Hrun Ho))|].
  intros op Hop Heq. destruct (Hnew op Hop) as (k' & o' & ds' & Hg' & Ht).
  apply Ho. rewrite <- Heq. unfold cands.
  apply list_elem_of_In, in_concat. exists ds'. split; [|apply list_elem_of_In; exact Ht].
  apply in_map_iff. exists (k', o' :: ds'). split; [reflexivity|]. apply list_elem_of_In. exact Hg'.
Qed.

Lemma hardlink_keeps_originals_witness :
  hl_ops hlX1 = [OpRemove "d"; OpLink "o" "d"; OpRemove "f"] /\
  fs_inode (hl_fs hlX1) !! "o" = Some 1%N /\
  forall op, op ∈ hl_ops hlX1 -> op_target op <> "o".
Proof.
  assert (H1 : hardlinkDuplicates (map_to_list tableX) hlX0 = Some hlX1)
    by (vm_compute; reflexivity).
  destruct (hardlink_keeps_originals tableX (map_to_list tableX) hlX0 hlX1)
    as (new & E & _ & Hk).
  - vm_compute. repeat constructor; vm_compute; intros Hin; repeat (inversion Hin as [|? ? ? Hin']; subst; clear Hin; rename Hin' into Hin).
  - reflexivity.
  - exact H1.
  - destruct (Hk "h" "o" ["d"; "e"; "f"]) as [Hi Hop]; [vm_compute; left|].
    split; [vm_compute; reflexivity|]. split; [rewrite Hi; vm_compute; reflexivity|].
    rewrite E. simpl. exact Hop.
Defined.

(* ------------------------------------------------------------------ *)
(** ** Further properties of the code *)

Lemma concat_map_perm {A B} (f : A -> list B) (l1 l2 : list A) :
  l1 ≡ₚ l2 -> concat (map f l1) ≡ₚ concat (map f l2).
Proof.
  induction 1 as [|x l1 l2 _ IH|x y l|l1 l2 l3 _ IH1 _ IH2]; simpl.
  - reflexivity.
  - rewrite IH. reflexivity.
  - rewrite !app_assoc. rewrite (Permutation_app_comm (f y) (f x)). reflexivity.
  - rewrite IH1. exact IH2.
Qed.

Lemma concat_map_submseteq {A B} (f : A -> list B) (l1 l2 : list A) :
  l1 ⊆+ l2 -> concat (map f l1) ⊆+ concat (map f l2).
Proof.
  induction 1 as [|x l1 l2 _ IH|x y l|x l1 l2 _ IH|l1 l2 l3 _ IH1 _ IH2]; simpl.
  - reflexivity.
  - apply submseteq_app; [reflexivity|exact IH].
  - rewrite !app_assoc. rewrite (Permutation_app_comm (f y) (f x)). reflexivity.
  - etrans; [exact IH|]. apply submseteq_inserts_l. reflexivity.
  - etrans; [exact IH1|exact IH2].
Qed.

Lemma sum_list_with_perm {A} (f : A -> nat) (l1 l2 : list A) :
  l1 ≡ₚ l2 -> sum_list_with f l1 = sum_list_with f l2.
Proof.
  induction 1; simpl; lia.
Qed.

Lemma NoDup_submseteq_inv {A} (l1 l2 : list A) : l1 ⊆+ l2 -> NoDup l2 -> NoDup l1.
Proof.
  intros Hs Hnd. apply submseteq_Permutation in Hs as [k Hk].
  rewrite Hk in Hnd. apply NoDup_app in Hnd. tauto.
Qed.

Lemma map_to_list_insert_delete {V} (m : gmap string V) (k : string) (v : V) :
  map_to_list (<[k := v]> m) ≡ₚ (k, v) :: map_to_list (delete k m).
Proof.
  rewrite <- insert_delete_eq. apply map_to_list_insert. apply lookup_delete_eq.
Qed.

Lemma map_to_list_lookup_delete {V} (m : gmap string V) (k : string) :
  map_to_list m ≡ₚ match m !! k with Some v => (k, v) :: map_to_list (delete k m)
                                   | None => map_to_list (delete k m) end.
Proof.
  destruct (m !! k) as [v|] eqn:E.
  - symmetry. apply map_to_list_delete. exact E.
  - rewrite delete_id by exact E. reflexivity.
Qed.

Lemma table_paths_append_path (m : gmap string (list string)) (k p : string) :
  table_paths (append_path m k p) ≡ₚ p :: table_paths m.
Proof.
  unfold table_paths, append_path.
  rewrite (concat_map_perm snd _ _ (map_to_list_insert_delete m k _)).
  rewrite (concat_map_perm snd _ _ (map_to_list_lookup_delete m k)).
  destruct (m !! k) as [v|]; simpl.
  - rewrite <- app_assoc. simpl. symmetry. apply Permutation_middle.
  - reflexivity.
Qed.

Lemma table_paths_fold (rs : list (string * HashBytes)) (m0 : gmap string (list string)) :
  table_paths (foldl (fun m '(p, sum) => append_path m (encodeToString sum) p) m0 rs)
    ≡ₚ map fst rs ++ table_paths m0.
Proof.
  revert m0. induction rs as [|[p sum] rs IH]; intros m0; simpl; [reflexivity|].
  rewrite IH, table_paths_append_path. symmetry. apply Permutation_middle.
Qed.

Lemma table_paths_filter (P : string * list string -> Prop) `{!forall x, Decision (P x)}
    (m : gmap string (list string)) :
  table_paths (filter P m) ⊆+ table_paths m.
Proof.
  unfold table_paths. apply concat_map_submseteq.
  apply map_to_list_submseteq. apply map_filter_subseteq.
Qed.

Lemma paths_with_cons (k p : string) (sum : HashBytes) (rs : list (string * HashBytes)) :
  paths_with k ((p, sum) :: rs) =
  if decide (encodeToString sum = k) then p :: paths_with k rs else paths_with k rs.
Proof. unfold paths_with. rewrite filter_cons. simpl. case_decide; reflexivity. Qed.

Lemma fold_lookup (rs : list (string * HashBytes)) (m0 : gmap string (list string)) (k : string) :
  foldl (fun m '(p, sum) => append_path m (encodeToString sum) p) m0 rs !! k =
  match paths_with k rs with
  | [] => m0 !! k
  | ps => Some (default [] (m0 !! k) ++ ps)
  end.
Proof.
  revert m0. induction rs as [|[p sum] rs IH]; intros m0; simpl; [reflexivity|].
  rewrite IH, paths_with_cons, lookup_append_path.
  destruct (decide (encodeToString sum = k)) as [<-|Ek].
  - try rewrite decide_True by reflexivity.
    destruct (paths_with (encodeToString sum) rs) as [|q qs]; simpl; [reflexivity|].
    rewrite <- app_assoc. reflexivity.
  - try rewrite decide_False by exact Ek. reflexivity.
Qed.

Lemma hashes_to_paths_lookup (rs : list (string * HashBytes)) (k : string) :
  hashes_to_paths rs !! k = match paths_with k rs with [] => None | ps => Some ps end.
Proof.
  unfold hashes_to_paths. rewrite fold_lookup. rewrite lookup_empty.
  destruct (paths_with k rs); reflexivity.
Qed.

Lemma promotes_findDuplicates (fileMap : list (string * HashBytes)) :
  promotes (hashes_to_paths fileMap) (findDuplicates fileMap).
Proof.
  unfold hashes_to_paths, findDuplicates. apply promotes_fold. apply promotes_init.
Qed.

Lemma extra_copies_insert (m : gmap string (list string)) (k : string) (v : list string) :
  extra_copies (<[k := v]> m) = (length v - 1 + extra_copies (delete k m))%nat.
Proof.
  unfold extra_copies. rewrite (sum_list_with_perm _ _ _ (map_to_list_insert_delete m k v)).
  reflexivity.
Qed.

Lemma extra_copies_lookup (m : gmap string (list string)) (k : string) :
  extra_copies m = (match m !! k with Some v => length v - 1 | None => 0 end
                    + extra_copies (delete k m))%nat.
Proof.
  unfold extra_copies. rewrite (sum_list_with_perm _ _ _ (map_to_list_lookup_delete m k)).
  destruct (m !! k); reflexivity.
Qed.

Lemma findDuplicates_counts_fold (l : list (string * HashBytes)) (d : dedup) :
  no_empty_group (fileByteMapDups d) ->
  no_empty_group (fileByteMapDups (foldl findDuplicates_step d l)) /\
  dom (fileByteMap (foldl findDuplicates_step d l)) =
    dom (fileByteMap d) ∪ list_to_set (map (fun e => encodeToString e.2) l) /\
  (length l + size (fileByteMap d) + extra_copies (fileByteMapDups d) =
   size (fileByteMap (foldl findDuplicates_step d l)) +
   extra_copies (fileByteMapDups (foldl findDuplicates_step d l)))%nat.
Proof.
  revert d. induction l as [|[p hb] l IH]; intros d Hne.
  - simpl. split; [exact Hne|]. split; [set_solver|lia].
  - cbn [foldl length map]. rewrite list_to_set_cons. destruct (fileByteMap d !! encodeToString hb) as [o|] eqn:Eo.
    + set (dups := match fileByteMapDups d !! encodeToString hb with
                   | Some _ => fileByteMapDups d
                   | None => <[encodeToString hb := [o]]> (fileByteMapDups d) end).
      assert (Hne1 : no_empty_group (append_path dups (encodeToString hb) p)).
      { apply append_path_no_empty. unfold dups. case_match; [exact Hne|].
        intros k'. rewrite lookup_insert. case_decide; [congruence|apply Hne]. }
      assert (Es : findDuplicates_step d (p, hb) =
                   mkDedup (fileByteMap d) (append_path dups (encodeToString hb) p))
        by (unfold findDuplicates_step; simpl; rewrite Eo; reflexivity).
      rewrite Es.
      destruct (IH (mkDedup (fileByteMap d) (append_path dups (encodeToString hb) p)) Hne1) as (IH1 & IH2 & IH3). simpl in IH1, IH2, IH3.
      split; [exact IH1|]. split.
      * rewrite IH2. apply elem_of_dom_2 in Eo. set_solver.
      * rewrite <- IH3. unfold append_path. rewrite extra_copies_insert.
        rewrite (extra_copies_lookup (fileByteMapDups d) (encodeToString hb)).
        unfold dups. destruct (fileByteMapDups d !! encodeToString hb) as [v|] eqn:Ev.
        -- rewrite Ev. simpl. rewrite length_app. simpl.
           destruct v; [exfalso; exact (Hne _ Ev)|]. simpl. lia.
        -- rewrite lookup_insert_eq. simpl.
           rewrite delete_insert_eq. rewrite delete_id by exact Ev. lia.
    + assert (Es : findDuplicates_step d (p, hb) =
                   mkDedup (<[encodeToString hb := p]> (fileByteMap d)) (fileByteMapDups d))
        by (unfold findDuplicates_step; simpl; rewrite Eo; reflexivity).
      rewrite Es.
      destruct (IH (mkDedup (<[encodeToString hb := p]> (fileByteMap d)) (fileByteMapDups d)) Hne) as (IH1 & IH2 & IH3). simpl in IH1, IH2, IH3.
      split; [exact IH1|]. split.
      * rewrite IH2, dom_insert_L. set_solver.
      * rewrite <- IH3. rewrite map_size_insert_None by exact Eo. lia.
Qed.

Ltac rewrite_fields :=
  repeat match goal with
  | Hw : walker ?s = _ |- _ => progress rewrite Hw in *
  | Hw : ctx_err ?s = _ |- _ => progress rewrite Hw in *
  end.

Lemma dirs_step (root : string) (hasher : HashFunc) (entries : list entry) (s s' : state) :
  dirs_inv root entries s -> step root hasher s s' -> dirs_inv root entries s'.
Proof.
  intros [[rest Hr] Hc] [ch Hex]. unfold dirs_inv.
  destruct ch; exec_cases Hex; rewrite_fields; simpl in *.
  all: try (split; [exists rest; assumption|assumption]).
  all: split; [eexists; rewrite <- Hr; rewrite <- ?app_assoc; reflexivity
               |intros Hn; try discriminate; rewrite <- Hc by first [reflexivity|assumption];
                rewrite <- ?app_assoc; reflexivity].
Qed.

Lemma concat_map_insert {A B} (f : A -> list B) (ds : list A) (i : nat) (x y : A) :
  ds !! i = Some y -> concat (map f (<[i := x]> ds)) ++ f y ≡ₚ f x ++ concat (map f ds).
Proof.
  revert i. induction ds as [|d ds IH]; intros [|i] H; simpl in *; try discriminate.
  - injection H as ->. solve_Permutation.
  - rewrite <- app_assoc, (IH i H). solve_Permutation.
Qed.

Lemma sub_of_perm {A} (C' C X Y : list A) : C' ++ Y ≡ₚ X ++ C -> X ⊆+ Y -> C' ⊆+ C.
Proof.
  intros Hp Hs. apply submseteq_Permutation in Hs as [Z HZ]. rewrite HZ in Hp.
  assert (Hc : X ++ (C' ++ Z) ≡ₚ X ++ C) by (rewrite <- Hp; solve_Permutation).
  apply Permutation_app_inv_l in Hc. rewrite <- Hc. apply submseteq_inserts_r. reflexivity.
Qed.

Lemma paths_step (root : string) (hasher : HashFunc) (entries : list entry) (s s' : state) :
  paths_inv entries s -> step root hasher s s' -> paths_inv entries s'.
Proof.
  intros Hinv [ch Hex]. unfold paths_inv in *.
  destruct ch; exec_cases Hex; rewrite_fields; simpl in *; try assumption.
  all: etrans; [|exact Hinv].
  all: match goal with
  | |- _ ++ _ ++ [] ⊆+ _ =>
      apply submseteq_app; [reflexivity|]; apply submseteq_app; [reflexivity|]; apply submseteq_nil_l
  | H : digesters ?s !! ?i = Some ?y |- context [<[?i := ?x]> (digesters ?s)] =>
      pose proof (concat_map_insert digester_paths (digesters s) i x y H) as Hp; cbn [digester_paths rpath] in Hp;
      set (C' := concat (map digester_paths (<[i := x]> (digesters s)))) in *;
      set (C := concat (map digester_paths (digesters s))) in *
  end.
  6: rewrite table_paths_append_path, <- Hp; apply Permutation_submseteq; solve_Permutation.
  1: rewrite app_nil_r in Hp; rewrite Hp; apply Permutation_submseteq; solve_Permutation.
  all: apply submseteq_app; [reflexivity|]; apply submseteq_app; [|reflexivity].
  all: eapply sub_of_perm; [exact Hp|]; simpl; first [apply submseteq_nil_l|reflexivity].
Qed.

Lemma hash_step (root : string) (hasher : HashFunc) (s s' : state) :
  hash_inv hasher s -> step root hasher s s' -> hash_inv hasher s'.
Proof.
  intros [Ht Hd] [ch Hex]. unfold hash_inv.
  destruct ch; exec_cases Hex; split; simpl in *; try assumption.
  all: try (intros j r' Hj; apply list_lookup_insert_Some in Hj as [(_ & Hx & _)|(_ & Hj)];
            [try discriminate; injection Hx as <-; simpl; assumption|exact (Hd j r' Hj)]).
  intros k ps p Hk Hp. rewrite lookup_append_path in Hk. case_decide as Ek; [|exact (Ht k ps p Hk Hp)].
  subst k. injection Hk as <-. apply elem_of_app in Hp as [Hp|Hp].
  - destruct (hashesToPaths (aggr s) !! encodeToString (rsum r)) as [ps|] eqn:E; simpl in Hp.
    + exact (Ht _ ps p E Hp).
    + apply not_elem_of_nil in Hp. contradiction.
  - apply list_elem_of_singleton in Hp. subst p. exists (rsum r).
    rewrite (Hd _ _ H1), H2. split; reflexivity.
Qed.

Lemma hashed_step (root : string) (hasher : HashFunc) (total : Z) (s s' : state) :
  hashed_inv total s -> step root hasher s s' -> hashed_inv total s'.
Proof.
  intros (Hc & Hne & Heq) Hs. split; [exact (proj1 (counters_step root hasher total s s' Hc Hs))|].
  destruct Hs as [ch Hex].
  destruct ch; exec_cases Hex; simpl in *; (split; [try assumption; apply append_path_no_empty; assumption|try assumption]).
  rewrite (Permutation_length (table_paths_append_path _ _ _)). simpl length.
  pose proof (zsum_busy_lookup (digesters s) i _ H1) as Hz. simpl in Hz.
  pose proof (walker_holds_bounds (walker s)). pose proof (regs_left_nonneg (walker s)).
  unfold counters_ok, inflight in Hc. rewrite add1_small by lia. lia.
Qed.




Lemma inv_reachable (root : string) (hasher : HashFunc) (P : state -> Prop) (s s' : state) :
  (forall x y, P x -> step root hasher x y -> P y) -> P s -> reachable root hasher s s' -> P s'.
Proof.
  intros Hs H0 Hr. induction Hr as [s|s s1 s' H1 Hr IH]; [exact H0|].
  apply IH. exact (Hs s s1 H0 H1).
Qed.

Lemma lookup_repeat_range (n i : nat) (d : digester_pc) :
  repeat DRange n !! i = Some d -> d = DRange.
Proof.
  revert i. induction n as [|n IH]; intros [|i] H; simpl in H; try discriminate.
  - congruence.
  - exact (IH i H).
Qed.

Lemma table_paths_empty : table_paths ∅ = [].
Proof. unfold table_paths. rewrite map_to_list_empty. reflexivity. Qed.

Lemma concat_repeat_range (n : nat) : concat (map digester_paths (repeat DRange n)) = [].
Proof. induction n as [|n IH]; simpl; [reflexivity|exact IH]. Qed.

Lemma length_table_paths (m : gmap string (list string)) :
  no_empty_group m -> length (table_paths m) = (size m + extra_copies m)%nat.
Proof.
  intros Hne. unfold table_paths, extra_copies. rewrite <- length_map_to_list.
  assert (Hl : Forall (fun kv : string * list string => kv.2 <> []) (map_to_list m)).
  { apply Forall_forall. intros [k v] Hin. apply elem_of_map_to_list in Hin.
    simpl. intros ->. exact (Hne k Hin). }
  induction Hl as [|[k v] l Hv Hl IH]; simpl; [reflexivity|].
  rewrite length_app, IH. simpl in Hv. destruct v; [congruence|]. simpl. lia.
Qed.

Lemma extra_copies_duplicates (m : gmap string (list string)) :
  extra_copies (duplicates_of m) = extra_copies m.
Proof.
  unfold duplicates_of. induction m as [|k v m Hk IH] using map_ind.
  - rewrite map_filter_empty. reflexivity.
  - assert (Hf : filter (fun kv : string * list string => (1 < length kv.2)%nat) m !! k = None)
      by (apply map_lookup_filter_None; left; exact Hk).
    rewrite map_filter_insert. case_decide as Hp.
    + rewrite !extra_copies_insert, (delete_id _ _ Hf), (delete_id _ _ Hk), IH. reflexivity.
    + rewrite (delete_id _ _ Hk), IH, extra_copies_insert, (delete_id _ _ Hk). simpl in Hp. lia.
Qed.

Lemma totalDuplicates_fold (l : list (string * list string)) (acc : Z) :
  Forall (fun kv : string * list string => (1 <= length kv.2)%nat) l -> 0 <= acc ->
  acc + Z.of_nat (sum_list_with (fun kv : string * list string => length kv.2 - 1)%nat l) < 2 ^ 63 ->
  foldl (fun acc '(_, paths) => wrap_int64 (acc + (Z.of_nat (length paths) - 1))) acc l =
  acc + Z.of_nat (sum_list_with (fun kv : string * list string => length kv.2 - 1)%nat l).
Proof.
  revert acc. induction l as [|[k ps] l IH]; intros acc Hl Ha Hb; simpl in *; [lia|].
  inversion Hl as [|? ? Hps Hl']; subst. simpl in Hps.
  assert (E : wrap_int64 (acc + (Z.of_nat (length ps) - 1)) = acc + Z.of_nat (length ps - 1)).
  { unfold wrap_int64. rewrite Z.mod_small by lia. lia. }
  rewrite E, IH by (auto; lia). lia.
Qed.

Lemma dirs_init (root : string) (ctx0 : option go_error) (entries : list entry) (n : nat) :
  dirs_inv root entries (init ctx0 entries n).
Proof. split; [exists []; rewrite app_nil_r; reflexivity|intros _; reflexivity]. Qed.

Lemma paths_init (ctx0 : option go_error) (entries : list entry) (n : nat) :
  paths_inv entries (init ctx0 entries n).
Proof.
  unfold paths_inv, init. simpl. rewrite table_paths_empty, concat_repeat_range. reflexivity.
Qed.

Lemma hash_init (hasher : HashFunc) (ctx0 : option go_error) (entries : list entry) (n : nat) :
  hash_inv hasher (init ctx0 entries n).
Proof.
  split; simpl.
  - intros k ps p Hk. rewrite lookup_empty in Hk. discriminate.
  - intros i r Hi. apply lookup_repeat_range in Hi. discriminate.
Qed.

Lemma hashed_init (ctx0 : option go_error) (entries : list entry) (n : nat) :
  regs entries < 2 ^ 64 -> hashed_inv (regs entries) (init ctx0 entries n).
Proof.
  intros Hb. split; [exact (counters_ok_init ctx0 entries n Hb)|]. split.
  - intros k. simpl. rewrite lookup_empty. discriminate.
  - simpl. rewrite table_paths_empty. reflexivity.
Qed.

Lemma ops_blocks_app (l1 l2 : list fs_op) : ops_blocks l1 -> ops_blocks l2 -> ops_blocks (l1 ++ l2).
Proof.
  induction 1; intros H2; simpl; [exact H2|apply blocks_remove; auto|apply blocks_relink; auto].
Qed.

Lemma link_candidate_count (o : string) (st : hl_state) (d : string) :
  (hl_ops (link_candidate o st d) = hl_ops st /\
   linksCreatedCount (link_candidate o st d) = linksCreatedCount st) \/
  (hl_ops (link_candidate o st d) = hl_ops st ++ [OpRemove d] /\
   linksCreatedCount (link_candidate o st d) = linksCreatedCount st) \/
  (hl_ops (link_candidate o st d) = hl_ops st ++ [OpRemove d; OpLink o d] /\
   linksCreatedCount (link_candidate o st d) = add1_u64 (linksCreatedCount st)).
Proof.
  unfold link_candidate. repeat case_match; simplify_eq/=; auto.
Qed.

Lemma fold_count (o : string) (ds : list string) (st : hl_state) (x : Z) :
  linksCreatedCount st = x mod 2 ^ 64 ->
  exists new, hl_ops (foldl (link_candidate o) st ds) = hl_ops st ++ new /\ ops_blocks new /\
    linksCreatedCount (foldl (link_candidate o) st ds) =
      (x + Z.of_nat (length (filter (fun op => is_link op = true) new))) mod 2 ^ 64.
Proof.
  revert st x. induction ds as [|d ds IH]; intros st x Hx; simpl.
  - exists []. rewrite app_nil_r. split; [reflexivity|]. split; [constructor|]. simpl.
    rewrite Z.add_0_r. exact Hx.
  - destruct (link_candidate_count o st d) as [(E1 & C1)|[(E1 & C1)|(E1 & C1)]].
    + destruct (IH _ x (eq_trans C1 Hx)) as (n2 & E2 & B2 & C2).
      exists n2. rewrite E2, E1. auto.
    + destruct (IH _ x (eq_trans C1 Hx)) as (n2 & E2 & B2 & C2).
      exists (OpRemove d :: n2). rewrite E2, E1, <- app_assoc. split; [reflexivity|].
      split; [constructor; exact B2|]. rewrite C2. reflexivity.
    + assert (Hy : linksCreatedCount (link_candidate o st d) = (x + 1) mod 2 ^ 64).
      { rewrite C1, Hx. unfold add1_u64. rewrite Z.add_mod_idemp_l by lia. reflexivity. }
      destruct (IH _ _ Hy) as (n2 & E2 & B2 & C2).
      exists (OpRemove d :: OpLink o d :: n2). rewrite E2, E1, <- app_assoc. split; [reflexivity|].
      split; [constructor; exact B2|]. rewrite C2. f_equal. simpl. lia.
Qed.

Lemma hardlink_count (gs : list (string * list string)) (st st' : hl_state) (x : Z) :
  linksCreatedCount st = x mod 2 ^ 64 -> hardlinkDuplicates gs st = Some st' ->
  exists new, hl_ops st' = hl_ops st ++ new /\ ops_blocks new /\
    linksCreatedCount st' = (x + Z.of_nat (length (filter (fun op => is_link op = true) new))) mod 2 ^ 64.
Proof.
  revert st x. induction gs as [|[k paths] gs IH]; intros st x Hx H; simpl in H.
  - injection H as <-. exists []. rewrite app_nil_r. split; [reflexivity|]. split; [constructor|].
    simpl. rewrite Z.add_0_r. exact Hx.
  - destruct paths as [|o ds]; simpl in H; [discriminate|].
    destruct (fold_count o ds st x Hx) as (n1 & E1 & B1 & C1).
    destruct (IH _ _ C1 H) as (n2 & E2 & B2 & C2).
    exists (n1 ++ n2). rewrite E2, E1, <- app_assoc. split; [reflexivity|].
    split; [apply ops_blocks_app; assumption|]. rewrite C2, filter_app, length_app. f_equal. lia.
Qed.

Lemma link_candidate_outcome (o : string) (st : hl_state) (d : string) :
  candidate_outcome (hl_fs st) (hl_fs (link_candidate o st d)) o d /\
  fs_dev (hl_fs (link_candidate o st d)) = fs_dev (hl_fs st).
Proof.
  unfold candidate_outcome, link_candidate, areFilesHardLinked, os_Stat, os_Remove, os_Link.
  repeat case_match; simplify_eq/=; auto.
  all: split; [|reflexivity].
  all: rewrite ?lookup_insert_eq, ?lookup_delete_eq; auto.
  right; right. destruct (decide (o = d)) as [->|Hne].
  - rewrite lookup_delete_eq in *. discriminate.
  - rewrite lookup_delete_ne in * by congruence. congruence.
Qed.

Lemma fold_outcome (o : string) (ds : list string) (st : hl_state) :
  o ∉ ds -> NoDup ds ->
  (forall d, d ∈ ds -> candidate_outcome (hl_fs st) (hl_fs (foldl (link_candidate o) st ds)) o d) /\
  fs_dev (hl_fs (foldl (link_candidate o) st ds)) = fs_dev (hl_fs st).
Proof.
  revert st. induction ds as [|d0 ds IH]; intros st Ho Hnd; simpl.
  - split; [intros d Hd; apply not_elem_of_nil in Hd; contradiction|reflexivity].
  - apply not_elem_of_cons in Ho as [Ho0 Ho]. apply NoDup_cons in Hnd as [Hd0 Hnd].
    set (st1 := link_candidate o st d0).
    destruct (link_candidate_outcome o st d0) as [Hout1 Hdev1].
    destruct (IH st1 Ho Hnd) as [Hout Hdev].
    split; [|rewrite Hdev; exact Hdev1].
    intros d Hd. apply elem_of_cons in Hd as [->|Hd].
    + destruct (fold_frame o ds st1 d0 Hd0) as [Hf _]. unfold candidate_outcome in *.
      rewrite Hf. exact Hout1.
    + assert (Hdd : d <> d0) by (intros ->; contradiction).
      destruct (link_candidate_frame o st d0 d Hdd) as [Hf1 _].
      destruct (link_candidate_frame o st d0 o Ho0) as [Hf2 _].
      pose proof (Hout d Hd) as Hc. unfold candidate_outcome in *.
      fold st1 in Hf1, Hf2. rewrite Hf1, Hf2 in Hc. exact Hc.
Qed.

Lemma group_member (gs : list (string * list string)) (k p : string) (ps : list string) :
  (k, ps) ∈ gs -> p ∈ ps -> p ∈ concat (map snd gs).
Proof.
  induction gs as [|g gs IH]; intros Hg Hp; [apply not_elem_of_nil in Hg; contradiction|].
  simpl. apply elem_of_app. apply elem_of_cons in Hg as [<-|Hg]; [left; exact Hp|right; auto].
Qed.

Lemma hardlink_outcome (gs : list (string * list string)) (st st' : hl_state) :
  NoDup (concat (map snd gs)) -> hardlinkDuplicates gs st = Some st' ->
  (forall k o ds d, (k, o :: ds) ∈ gs -> d ∈ ds -> candidate_outcome (hl_fs st) (hl_fs st') o d) /\
  fs_dev (hl_fs st') = fs_dev (hl_fs st).
Proof.
  revert st. induction gs as [|[k0 paths] gs IH]; intros st Hnd H; simpl in H.
  - injection H as <-. split; [intros k o ds d Hg; apply not_elem_of_nil in Hg; contradiction|reflexivity].
  - destruct paths as [|o0 ds0]; simpl in H; [discriminate|].
    change (NoDup ((o0 :: ds0) ++ concat (map snd gs))) in Hnd.
    apply NoDup_app in Hnd as (Hnd1 & Hdis & Hnd2).
    pose proof Hnd1 as Hnd1'. apply NoDup_cons in Hnd1' as [Ho0 Hnd0].
    set (st1 := foldl (link_candidate o0) st ds0) in H.
    destruct (fold_outcome o0 ds0 st Ho0 Hnd0) as [Hout1 Hdev1].
    destruct (IH st1 Hnd2 H) as [Hout Hdev].
    split; [|rewrite Hdev; exact Hdev1].
    intros k o ds d Hg Hd. apply elem_of_cons in Hg as [Hg|Hg].
    + injection Hg as -> -> ->.
      assert (Hnc : d ∉ cands gs).
      { intros Hc. apply (Hdis d); [apply elem_of_cons; right; exact Hd|apply cands_sub; exact Hc]. }
      destruct (hardlink_frame gs st1 st' d H Hnc) as [Hf _].
      pose proof (Hout1 d Hd) as Hc. unfold candidate_outcome in *. rewrite Hf. exact Hc.
    + assert (Hdn : d ∉ ds0).
      { intros Hin. apply (Hdis d); [apply elem_of_cons; right; exact Hin|].
        apply (group_member gs k d (o :: ds) Hg). apply elem_of_cons. right. exact Hd. }
      assert (Hon : o ∉ ds0).
      { intros Hin. apply (Hdis o); [apply elem_of_cons; right; exact Hin|].
        apply (group_member gs k o (o :: ds) Hg). apply elem_of_cons. left. reflexivity. }
      destruct (fold_frame o0 ds0 st d Hdn) as [Hf1 _].
      destruct (fold_frame o0 ds0 st o Hon) as [Hf2 _].
      pose proof (Hout k o ds d Hg Hd) as Hc. unfold candidate_outcome in *.
      fold st1 in Hf1, Hf2. rewrite Hf1, Hf2 in Hc. exact Hc.
Qed.

Lemma hardlink_total (gs : list (string * list string)) (st : hl_state) :
  Forall (fun g : string * list string => g.2 <> []) gs ->
  exists st', hardlinkDuplicates gs st = Some st'.
Proof.
  intros Hall. revert st. induction Hall as [|[k paths] gs Hp Hall IH]; intros st; simpl.
  - eauto.
  - destruct paths as [|o ds]; [simpl in Hp; congruence|]. simpl. apply IH.
Qed.

Lemma hex_byte_digits (b : Byte.byte) :
  hex_char (N.shiftr (Byte.to_N b) 4) ∈ list_ascii_of_string hextable /\
  hex_char (N.land (Byte.to_N b) 15) ∈ list_ascii_of_string hextable.
Proof.
  destruct b; split; apply list_elem_of_In; vm_compute; repeat (first [left; reflexivity | right]).
Qed.

(** Extra X1: for every hex key [k], [findDuplicates] maps [k] in [fileByteMap] to the first path, in iteration order, whose digest encodes to [k], and in [fileByteMapDups] to the list of all such paths in iteration order exactly when there are at least two of them (no entry otherwise). *)
Theorem findDuplicates_lookup (fileMap : list (string * HashBytes)) (k : string) :
  fileByteMap (findDuplicates fileMap) !! k = head (paths_with k fileMap) /\
  fileByteMapDups (findDuplicates fileMap) !! k =
    (if decide (2 <= length (paths_with k fileMap))%nat then Some (paths_with k fileMap) else None).
Proof.
  pose proof (hashes_to_paths_lookup fileMap k) as Hl.
  destruct (promotes_findDuplicates fileMap k) as [(H1 & H2 & H3)|(p & ps & H1 & H2 & H3)];
    rewrite H1 in Hl.
  - destruct (paths_with k fileMap); [|discriminate]. simpl. split; assumption.
  - destruct (paths_with k fileMap) as [|q qs]; [discriminate|]. injection Hl as <- <-.
    split; [exact H2|]. rewrite H3. destruct ps; reflexivity.
Qed.

(** Extra X2: the keys of [fileByteMap] are exactly the hex encodings of the digests of the file list, and the number of files equals the number of keys plus, over the groups of [fileByteMapDups], the paths beyond the first. *)
Theorem findDuplicates_counts (fileMap : list (string * HashBytes)) :
  dom (fileByteMap (findDuplicates fileMap)) =
    list_to_set (map (fun e => encodeToString e.2) fileMap) /\
  length fileMap =
    (size (fileByteMap (findDuplicates fileMap)) +
     extra_copies (fileByteMapDups (findDuplicates fileMap)))%nat.
Proof.
  assert (Hne : no_empty_group (fileByteMapDups dedup_init)).
  { intros k. simpl. rewrite lookup_empty. discriminate. }
  destruct (findDuplicates_counts_fold fileMap dedup_init Hne) as (_ & H2 & H3).
  unfold findDuplicates. simpl in H2, H3. split.
  - rewrite H2, dom_empty_L. set_solver.
  - rewrite <- H3. unfold extra_copies. rewrite map_to_list_empty. simpl.
    rewrite map_size_empty. lia.
Qed.

(** Extra X3: [hex.EncodeToString] returns a string twice as long as its input, made only of the characters 0-9a-f, and two inputs with the same encoding are equal. *)
Theorem encodeToString_lower_hex (src : HashBytes) :
  String.length (encodeToString src) = (2 * length src)%nat /\
  Forall (fun c => c ∈ list_ascii_of_string hextable) (list_ascii_of_string (encodeToString src)) /\
  (forall other, encodeToString other = encodeToString src -> other = src).
Proof.
  split; [|split].
  - induction src as [|b src IH]; simpl; [reflexivity|]. rewrite IH. lia.
  - induction src as [|b src IH]; simpl; [constructor|].
    destruct (hex_byte_digits b). constructor; [assumption|]. constructor; [assumption|]. exact IH.
  - intros other. apply encodeToString_inj.
Qed.

(** Extra X4: when the file list names each path once, the groups of [fileByteMapDups] hold pairwise distinct paths, all of them from the file list. *)
Theorem findDuplicates_dups_nodup (fileMap : list (string * HashBytes)) :
  NoDup (map fst fileMap) ->
  NoDup (table_paths (fileByteMapDups (findDuplicates fileMap))) /\
  forall p, p ∈ table_paths (fileByteMapDups (findDuplicates fileMap)) -> p ∈ map fst fileMap.
Proof.
  intros Hnd.
  rewrite <- (promotes_duplicates _ _ (promotes_findDuplicates fileMap)).
  assert (Hs : table_paths (duplicates_of (hashes_to_paths fileMap)) ⊆+ map fst fileMap).
  { unfold duplicates_of. etrans; [apply table_paths_filter|].
    unfold hashes_to_paths. rewrite table_paths_fold.
    unfold table_paths. rewrite map_to_list_empty. simpl. rewrite app_nil_r. reflexivity. }
  split.
  - exact (NoDup_submseteq_inv _ _ Hs Hnd).
  - intros p Hp. eapply elem_of_submseteq; eassumption.
Qed.

Lemma findDuplicates_dups_nodup_witness :
  NoDup (map fst fileMapW) /\
  table_paths (fileByteMapDups (findDuplicates fileMapW)) = ["a"; "c"] /\
  NoDup (table_paths (fileByteMapDups (findDuplicates fileMapW))).
Proof.
  assert (Hnd : NoDup (map fst fileMapW)).
  { apply (bool_decide_unpack _). vm_compute. reflexivity. }
  destruct (findDuplicates_dups_nodup fileMapW Hnd) as [H _].
  split; [exact Hnd|]. split; [vm_compute; reflexivity|exact H].
Defined.

(** Extra X5: in every reachable state of [DigestAll], the directories collected so far are a prefix of the walk's directories other than the root, in walk order; while the context is not cancelled, followed by those the walker has still to send they are exactly that list. *)
Theorem digestAll_dirs_in_walk_order (root : string) (hasher : HashFunc)
    (ctx0 : option go_error) (entries : list entry) (numWorkers : nat) (s : state)
    (Hreach : reachable root hasher (init ctx0 entries numWorkers) s) :
  discoveredDirs (aggr s) `prefix_of` dirs_of root entries /\
  (ctx_err s = None ->
   discoveredDirs (aggr s) ++ walker_dirs root (walker s) = dirs_of root entries).
Proof.
  destruct (inv_reachable root hasher (dirs_inv root entries) _ s
              (dirs_step root hasher entries) (dirs_init root ctx0 entries numWorkers) Hreach)
    as [[rest Hr] Hc].
  split; [|exact Hc]. exists (walker_dirs root (walker s) ++ rest). symmetry. exact Hr.
Qed.

Lemma digestAll_dirs_in_walk_order_witness :
  reachable "r" hasherA (init None entriesA 1) stateA /\
  discoveredDirs (aggr stateA) = ["r/sub"] /\
  discoveredDirs (aggr stateA) `prefix_of` dirs_of "r" entriesA.
Proof.
  assert (Hr : reachable "r" hasherA (init None entriesA 1) stateA).
  { apply (run_reachable "r" hasherA scheduleA_full). vm_compute. reflexivity. }
  destruct (digestAll_dirs_in_walk_order "r" hasherA None entriesA 1 stateA Hr) as [H _].
  split; [exact Hr|]. split; [vm_compute; reflexivity|exact H].
Defined.

(** Extra X6: in every reachable state of [DigestAll], the paths of the aggregator's table form a sub-multiset of the walk's regular files; if the walk lists each regular file once, no path is stored twice. *)
Theorem digestAll_table_paths_from_walk (root : string) (hasher : HashFunc)
    (ctx0 : option go_error) (entries : list entry) (numWorkers : nat) (s : state)
    (Hreach : reachable root hasher (init ctx0 entries numWorkers) s) :
  table_paths (hashesToPaths (aggr s)) ⊆+ reg_paths entries /\
  (NoDup (reg_paths entries) -> NoDup (table_paths (hashesToPaths (aggr s)))).
Proof.
  pose proof (inv_reachable root hasher (paths_inv entries) _ s
                (paths_step root hasher entries) (paths_init ctx0 entries numWorkers) Hreach) as H.
  assert (Hs : table_paths (hashesToPaths (aggr s)) ⊆+ reg_paths entries).
  { etrans; [|exact H]. apply submseteq_inserts_r. reflexivity. }
  split; [exact Hs|]. intros Hnd. exact (NoDup_submseteq_inv _ _ Hs Hnd).
Qed.

Lemma digestAll_table_paths_from_walk_witness :
  reachable "r" hasherA (init None entriesA 1) stateA /\
  NoDup (reg_paths entriesA) /\
  NoDup (table_paths (hashesToPaths (aggr stateA))).
Proof.
  assert (Hr : reachable "r" hasherA (init None entriesA 1) stateA).
  { apply (run_reachable "r" hasherA scheduleA_full). vm_compute. reflexivity. }
  assert (Hnd : NoDup (reg_paths entriesA)).
  { apply (bool_decide_unpack _). vm_compute. reflexivity. }
  destruct (digestAll_table_paths_from_walk "r" hasherA None entriesA 1 stateA Hr) as [_ H].
  split; [exact Hr|]. split; [exact Hnd|exact (H Hnd)].
Defined.

(** Extra X7: in every reachable state of [DigestAll], each path stored under key [k] was hashed without error to a digest whose hex encoding is [k]. *)
Theorem digestAll_table_keys_are_digests (root : string) (hasher : HashFunc)
    (ctx0 : option go_error) (entries : list entry) (numWorkers : nat) (s : state)
    (k : string) (ps : list string) (p : string)
    (Hreach : reachable root hasher (init ctx0 entries numWorkers) s)
    (Hk : hashesToPaths (aggr s) !! k = Some ps) (Hp : p ∈ ps) :
  exists sum, hasher p = (sum, None) /\ encodeToString sum = k.
Proof.
  destruct (inv_reachable root hasher (hash_inv hasher) _ s
              (hash_step root hasher) (hash_init hasher ctx0 entries numWorkers) Hreach) as [Ht _].
  exact (Ht k ps p Hk Hp).
Qed.

Lemma digestAll_table_keys_are_digests_witness :
  reachable "r" hasherA (init None entriesA 1) stateA /\
  hashesToPaths (aggr stateA) !! encodeToString [Byte.x01] = Some ["r/a"; "r/sub/c"] /\
  exists sum, hasherA "r/sub/c" = (sum, None) /\ encodeToString sum = encodeToString [Byte.x01].
Proof.
  assert (Hr : reachable "r" hasherA (init None entriesA 1) stateA).
  { apply (run_reachable "r" hasherA scheduleA_full). vm_compute. reflexivity. }
  assert (Hk : hashesToPaths (aggr stateA) !! encodeToString [Byte.x01] = Some ["r/a"; "r/sub/c"]).
  { vm_compute. reflexivity. }
  split; [exact Hr|]. split; [exact Hk|].
  apply (digestAll_table_keys_are_digests "r" hasherA None entriesA 1 stateA _ _ "r/sub/c" Hr Hk).
  right. left.
Defined.

(** Extra X8: when the walk has fewer than 2^64 regular files, in every reachable state of [DigestAll] the [filesHashed] counter equals the number of paths stored in the aggregator's table. *)
Theorem digestAll_filesHashed_counts_table (root : string) (hasher : HashFunc)
    (ctx0 : option go_error) (entries : list entry) (numWorkers : nat) (s : state)
    (Hbound : regs entries < 2 ^ 64)
    (Hreach : reachable root hasher (init ctx0 entries numWorkers) s) :
  filesHashed s = Z.of_nat (length (table_paths (hashesToPaths (aggr s)))).
Proof.
  destruct (inv_reachable root hasher (hashed_inv (regs entries)) _ s
              (hashed_step root hasher (regs entries)) (hashed_init ctx0 entries numWorkers Hbound)
              Hreach) as (_ & _ & H).
  exact H.
Qed.

Lemma digestAll_filesHashed_counts_table_witness :
  regs entriesA < 2 ^ 64 /\
  reachable "r" hasherA (init None entriesA 1) stateA /\
  filesHashed stateA = 3 /\
  filesHashed stateA = Z.of_nat (length (table_paths (hashesToPaths (aggr stateA)))).
Proof.
  assert (Hb : regs entriesA < 2 ^ 64) by (vm_compute; reflexivity).
  assert (Hr : reachable "r" hasherA (init None entriesA 1) stateA).
  { apply (run_reachable "r" hasherA scheduleA_full). vm_compute. reflexivity. }
  split; [exact Hb|]. split; [exact Hr|]. split; [vm_compute; reflexivity|].
  exact (digestAll_filesHashed_counts_table "r" hasherA None entriesA 1 stateA Hb Hr).
Defined.



(** Extra X10: when the walk has fewer than 2^63 regular files, [reportSummary] on the counter and the duplicate map of any reachable state of [DigestAll], in any iteration order, reports the number of hashed files, the number of distinct digests as unique files, and the number of collected directories. *)
Theorem reportSummary_counts_distinct_digests (root : string) (hasher : HashFunc)
    (ctx0 : option go_error) (entries : list entry) (numWorkers : nat) (s : state)
    (order : list (string * list string))
    (Hbound : regs entries < 2 ^ 63)
    (Hreach : reachable root hasher (init ctx0 entries numWorkers) s)
    (Hord : order ≡ₚ map_to_list (duplicates_of (hashesToPaths (aggr s)))) :
  reportSummary (filesHashed s) order (discoveredDirs (aggr s)) =
    (Z.of_nat (length (table_paths (hashesToPaths (aggr s)))),
     Z.of_nat (size (hashesToPaths (aggr s))), length (discoveredDirs (aggr s))).
Proof.
  assert (Hb64 : regs entries < 2 ^ 64) by lia.
  destruct (inv_reachable root hasher (hashed_inv (regs entries)) _ s
              (hashed_step root hasher (regs entries)) (hashed_init ctx0 entries numWorkers Hb64)
              Hreach) as (Hok & Hne & Hh).
  set (T := hashesToPaths (aggr s)) in *.
  pose proof (length_table_paths T Hne) as Hl.
  assert (Hsum : sum_list_with (fun kv : string * list string => length kv.2 - 1)%nat order =
                 extra_copies T).
  { rewrite (sum_list_with_perm _ _ _ Hord). apply extra_copies_duplicates. }
  assert (Hall : Forall (fun kv : string * list string => (1 <= length kv.2)%nat) order).
  { apply Forall_forall. intros [k v] Hin. rewrite Hord in Hin.
    apply elem_of_map_to_list in Hin. unfold duplicates_of in Hin.
    apply map_lookup_filter_Some in Hin as [_ Hv]. simpl in *. lia. }
  pose proof (walker_holds_bounds (walker s)). pose proof (zsum_nonneg (digesters s)).
  pose proof (regs_left_nonneg (walker s)).
  unfold counters_ok, inflight in Hok.
  unfold reportSummary. rewrite totalDuplicates_fold by (auto; lia).
  rewrite Hsum, Hh, Hl. f_equal. f_equal.
  rewrite (Z.mod_small (0 + _)) by lia. rewrite Z.mod_small; lia.
Qed.

Lemma reportSummary_counts_distinct_digests_witness :
  regs entriesA < 2 ^ 63 /\
  reachable "r" hasherA (init None entriesA 1) stateA /\
  reportSummary (filesHashed stateA) (map_to_list (duplicates_of (hashesToPaths (aggr stateA))))
    (discoveredDirs (aggr stateA)) = (3, 2, 1%nat).
Proof.
  assert (Hb : regs entriesA < 2 ^ 63) by (vm_compute; reflexivity).
  assert (Hr : reachable "r" hasherA (init None entriesA 1) stateA).
  { apply (run_reachable "r" hasherA scheduleA_full). vm_compute. reflexivity. }
  split; [exact Hb|]. split; [exact Hr|].
  rewrite (reportSummary_counts_distinct_digests "r" hasherA None entriesA 1 stateA _ Hb Hr
             (reflexivity _)).
  vm_compute. reflexivity.
Defined.

(** Extra X12: from a link counter below 2^64, [hardlinkDuplicates] only appends operations, made of removals each either alone or followed by a link recreating the removed path, and the counter grows by the number of links appended, modulo 2^64. *)
Theorem hardlink_links_counted (gs : list (string * list string)) (st st' : hl_state)
    (Hrange : 0 <= linksCreatedCount st < 2 ^ 64)
    (Hrun : hardlinkDuplicates gs st = Some st') :
  exists new, hl_ops st' = hl_ops st ++ new /\ ops_blocks new /\
    linksCreatedCount st' =
      (linksCreatedCount st + Z.of_nat (length (filter (fun op => is_link op = true) new))) mod 2 ^ 64.
Proof.
  apply (hardlink_count gs st st' (linksCreatedCount st)); [|exact Hrun].
  symmetry. apply Z.mod_small. exact Hrange.
Qed.

Lemma hardlink_links_counted_witness :
  hardlinkDuplicates (map_to_list tableX) hlX0 = Some hlX1 /\
  linksCreatedCount hlX1 = 1 /\
  exists new, hl_ops hlX1 = hl_ops hlX0 ++ new /\ ops_blocks new.
Proof.
  assert (H1 : hardlinkDuplicates (map_to_list tableX) hlX0 = Some hlX1)
    by (vm_compute; reflexivity).
  assert (Hr : 0 <= linksCreatedCount hlX0 < 2 ^ 64) by (simpl; lia).
  destruct (hardlink_links_counted (map_to_list tableX) hlX0 hlX1 Hr H1) as (new & E & Hb & _).
  split; [exact H1|]. split; [vm_compute; reflexivity|]. exists new. split; assumption.
Defined.

(** Extra X13: when the groups hold pairwise distinct paths, after [hardlinkDuplicates] every path that is no candidate names the same object as before, each candidate names its old object, nothing, or its original's old object, and the removal rights and the device of every path are unchanged. *)
Theorem hardlink_candidates_outcome (gs : list (string * list string)) (st0 st1 : hl_state)
    (Hnd : NoDup (concat (map snd gs)))
    (Hrun : hardlinkDuplicates gs st0 = Some st1) :
  (forall q, q ∉ cands gs -> fs_inode (hl_fs st1) !! q = fs_inode (hl_fs st0) !! q) /\
  (forall k o ds d, (k, o :: ds) ∈ gs -> d ∈ ds ->
     fs_inode (hl_fs st1) !! d = fs_inode (hl_fs st0) !! d \/
     fs_inode (hl_fs st1) !! d = None \/
     fs_inode (hl_fs st1) !! d = fs_inode (hl_fs st0) !! o) /\
  fs_pinned (hl_fs st1) = fs_pinned (hl_fs st0) /\ fs_dev (hl_fs st1) = fs_dev (hl_fs st0).
Proof.
  destruct (hardlink_outcome gs st0 st1 Hnd Hrun) as [Hout Hdev].
  split; [intros q Hq; exact (proj1 (hardlink_frame gs st0 st1 q Hrun Hq))|].
  split; [exact Hout|]. split; [|exact Hdev].
  destruct (exist_fresh (list_to_set (cands gs) : gset string)) as [q Hq].
  rewrite elem_of_list_to_set in Hq.
  exact (proj2 (hardlink_frame gs st0 st1 q Hrun Hq)).
Qed.

Lemma hardlink_candidates_outcome_witness :
  hardlinkDuplicates (map_to_list tableX) hlX0 = Some hlX1 /\
  fs_inode (hl_fs hlX1) !! "d" = Some 1%N /\
  (fs_inode (hl_fs hlX1) !! "f" = fs_inode (hl_fs hlX0) !! "f" \/
   fs_inode (hl_fs hlX1) !! "f" = None \/
   fs_inode (hl_fs hlX1) !! "f" = fs_inode (hl_fs hlX0) !! "o").
Proof.
  assert (H1 : hardlinkDuplicates (map_to_list tableX) hlX0 = Some hlX1)
    by (vm_compute; reflexivity).
  assert (Hnd : NoDup (concat (map snd (map_to_list tableX)))).
  { apply (bool_decide_unpack _). vm_compute. reflexivity. }
  destruct (hardlink_candidates_outcome (map_to_list tableX) hlX0 hlX1 Hnd H1) as (_ & Ho & _).
  split; [exact H1|]. split; [vm_compute; reflexivity|].
  apply (Ho "h" "o" ["d"; "e"; "f"]); [vm_compute; left|right; right; left].
Defined.

(** Extra X14: [hardlinkDuplicates] run on the [fileByteMapDups] table built by [findDuplicates], in any iteration order, never panics on [paths[0]]: every group is non-empty. *)
Theorem findDuplicates_hardlink_no_panic (fileMap : list (string * HashBytes))
    (order : list (string * list string)) (st : hl_state)
    (Hord : order ≡ₚ map_to_list (fileByteMapDups (findDuplicates fileMap))) :
  exists st', hardlinkDuplicates order st = Some st'.
Proof.
  apply hardlink_total. apply Forall_forall. intros [k v] Hin. rewrite Hord in Hin.
  apply elem_of_map_to_list in Hin.
  rewrite <- (promotes_duplicates _ _ (promotes_findDuplicates fileMap)) in Hin.
  unfold duplicates_of in Hin. apply map_lookup_filter_Some in Hin as [_ Hv].
  simpl in *. intros ->. simpl in Hv. lia.
Qed.

Lemma findDuplicates_hardlink_no_panic_witness :
  exists st', hardlinkDuplicates (map_to_list (fileByteMapDups (findDuplicates fileMapW))) hlX0
                = Some st'.
Proof.
  exact (findDuplicates_hardlink_no_panic fileMapW _ hlX0 (reflexivity _)).
Defined.
